(** * IANAZone: offset resolution against a formatting oracle

    A shallow embedding of [src/zones/IANAZone.js].  The module keeps three
    plain-object caches and one lazily chosen resolver function in module
    scope, asks [Intl.DateTimeFormat] (the oracle) for text or for a list of
    parts, and decodes a UTC offset in minutes from what it gets back.

    Modelling decisions, in one place:
    - a JavaScript string is the list of its UTF-16 code units ([list Z]);
    - a JavaScript number is [NaN] or an exact rational ([Num q]): the
      arithmetic of the module (products and sums of small integers, one
      division by 60 and one by 60000) is carried out exactly, infinities and
      the sign of zero are not represented;
    - the module-level [let] bindings are the fields of [state]; every
      function of the module that touches them is a computation in the monad
      [M], which threads the state and keeps it when an exception is thrown;
    - a plain object used as a map ([{}]) is a [gmap] of its own properties
      together with the properties it inherits from [Object.prototype];
    - the oracle is a record of functions; every call to it is appended to
      the [trace] field of the state. *)

From Stdlib Require Import ZArith QArith Qabs Qround Qreduction List Ascii String Lia.
From stdpp Require Import base option list gmap.

Open Scope Z_scope.

(** ** Strings *)

Fixpoint js (s : string) : list Z :=
  match s with
  | EmptyString => []
  | String a s' => Z.of_N (N_of_ascii a) :: js s'
  end.

(** ** Numbers *)

Inductive number :=
| NaN
| Num (q : Q).

Definition num_of_Z (z : Z) : number := Num (inject_Z z).

Definition isNaN (n : number) : bool :=
  match n with NaN => true | Num _ => false end.

Definition nadd (a b : number) : number :=
  match a, b with
  | Num x, Num y => Num (Qred (x + y))
  | _, _ => NaN
  end.

Definition nsub (a b : number) : number :=
  match a, b with
  | Num x, Num y => Num (Qred (x - y))
  | _, _ => NaN
  end.

Definition nmul (a b : number) : number :=
  match a, b with
  | Num x, Num y => Num (Qred (x * y))
  | _, _ => NaN
  end.

(** Division; the module only divides by the non-zero literals [60] and
    [60 * 1000], a zero divisor is mapped to [NaN] here. *)
Definition ndiv (a b : number) : number :=
  match a, b with
  | Num x, Num y => if Qeq_bool y 0 then NaN else Num (Qred (x / y))
  | _, _ => NaN
  end.

Definition nneg (a : number) : number :=
  match a with Num x => Num (Qred (- x)) | NaN => NaN end.

(** [Math.abs] *)
Definition Math_abs (a : number) : number :=
  match a with Num x => Num (Qred (Qabs x)) | NaN => NaN end.

(** [a === b] on numbers: [NaN] differs from everything. *)
Definition num_strict_eq (a b : number) : bool :=
  match a, b with
  | Num x, Num y => Qeq_bool x y
  | _, _ => false
  end.


(** ** Values that flow through the module *)

Inductive value :=
| VUndefined
| VNumber (n : number)
| VString (s : list Z).

(** [a === b] *)
Definition strict_eq (a b : value) : bool :=
  match a, b with
  | VUndefined, VUndefined => true
  | VNumber x, VNumber y => num_strict_eq x y
  | VString s, VString t => bool_decide (s = t)
  | _, _ => false
  end.

(** ** String built-ins *)

Definition is_digit (c : Z) : bool := (48 <=? c) && (c <=? 57).

(** WhiteSpace and LineTerminator code units of ECMAScript. *)
Definition is_space (c : Z) : bool :=
  (c =? 9) || (c =? 10) || (c =? 11) || (c =? 12) || (c =? 13) || (c =? 32)
  || (c =? 160) || (c =? 5760) || ((8192 <=? c) && (c <=? 8202))
  || (c =? 8232) || (c =? 8233) || (c =? 8239) || (c =? 8287)
  || (c =? 12288) || (c =? 65279).

Fixpoint trim_start (s : list Z) : list Z :=
  match s with
  | c :: s' => if is_space c then trim_start s' else s
  | [] => []
  end.

Definition trim (s : list Z) : list Z :=
  rev (trim_start (rev (trim_start s))).

(** The longest prefix of digits, and what follows it. *)
Fixpoint span_digits (s : list Z) : list Z * list Z :=
  match s with
  | c :: s' =>
      if is_digit c then let (d, r) := span_digits s' in (c :: d, r)
      else ([], s)
  | [] => ([], [])
  end.

Fixpoint digits_value (acc : Z) (ds : list Z) : Z :=
  match ds with
  | c :: ds' => digits_value (10 * acc + (c - 48)) ds'
  | [] => acc
  end.

Definition split_sign (s : list Z) : Z * list Z :=
  match s with
  | 43 :: b => (1, b)
  | 45 :: b => (-1, b)
  | _ => (1, s)
  end.

(** [Number(s)] on a string: white space is trimmed, the empty string is 0,
    a signed decimal literal with an optional fraction is its value and
    everything else is [NaN].  Exponents, [Infinity] and the [0x], [0o],
    [0b] prefixes are not recognised: the strings this module converts are
    slices of at most two code units and captures of [\d+], none of which
    can spell them. *)
Definition StringToNumber (s : list Z) : number :=
  match trim s with
  | [] => Num 0
  | t =>
      let (sgn, body) := split_sign t in
      let (ip, rest) := span_digits body in
      match rest with
      | [] =>
          match ip with
          | [] => NaN
          | _ => Num (Qred (inject_Z (sgn * digits_value 0 ip)))
          end
      | 46 :: fr =>
          let (fp, rest') := span_digits fr in
          match rest', ip ++ fp with
          | [], _ :: _ =>
              Num (Qred (inject_Z sgn *
                         (inject_Z (digits_value 0 ip) +
                          inject_Z (digits_value 0 fp) /
                          inject_Z (10 ^ Z.of_nat (length fp)))))
          | _, _ => NaN
          end
      | _ => NaN
      end
  end.

(** [Number(v)] *)
Definition ToNumber (v : value) : number :=
  match v with
  | VUndefined => NaN
  | VNumber n => n
  | VString s => StringToNumber s
  end.

(** [parseInt(s, 10)] *)
Definition parseInt (s : list Z) : number :=
  let (sgn, body) := split_sign (trim_start s) in
  match fst (span_digits body) with
  | [] => NaN
  | ds => num_of_Z (sgn * digits_value 0 ds)
  end.

(** [s.charCodeAt(pos)] *)
Definition charCodeAt (s : list Z) (pos : Z) : number :=
  if pos <? 0 then NaN
  else match s !! Z.to_nat pos with
       | Some c => num_of_Z c
       | None => NaN
       end.

(** [s.slice(from, to)]; a negative index counts from the end. *)
Definition slice (s : list Z) (from to : Z) : list Z :=
  let len := Z.of_nat (length s) in
  let clamp i := if i <? 0 then Z.max (len + i) 0 else Z.min i len in
  let a := clamp from in
  let b := clamp to in
  take (Z.to_nat (b - a)) (drop (Z.to_nat a) s).

(** [s.replace(/\u200E/g, empty)]: every U+200E is removed. *)
Definition strip_lrm (s : list Z) : list Z :=
  filter (fun c => c ≠ 8206) s.

(** [TimeClip(ToIntegerOrInfinity(n))]: the time value of [new Date(n)], and
    the instant a formatter is asked to print; [None] is the invalid date. *)
Definition time_clip (n : number) : option Z :=
  match n with
  | NaN => None
  | Num q =>
      let z := Z.quot (Qnum q) (Zpos (Qden q)) in
      if Z.abs z <=? 8640000000000000 then Some z else None
  end.

(** ** Regular expressions

    The two regular expression literals of the module are built from
    literals, character classes, sequence, alternation, [?], a greedy [+] on
    a class and capturing groups.  [rmatch] is the backtracking matcher in
    continuation-passing style: alternatives are tried left to right, [?] and
    [+] take as much as they can first.  The captures are collected in the
    order in which the groups close; the one expression whose captures are
    read ([re_wall]) has no nested group, so that is the groups' numbering. *)

Inductive regex :=
| Eps
| Chr (c : Z)
| Class (p : Z -> bool)
| Cat (r1 r2 : regex)
| Alt (r1 r2 : regex)
| Opt (r : regex)
| Plus (p : Z -> bool)
| Group (r : regex).

Fixpoint rmatch (r : regex) (s : list Z) (caps : list (list Z))
    (k : list Z -> list (list Z) -> option (list (list Z)))
    : option (list (list Z)) :=
  match r with
  | Eps => k s caps
  | Chr c =>
      match s with
      | x :: s' => if x =? c then k s' caps else None
      | [] => None
      end
  | Class p =>
      match s with
      | x :: s' => if p x then k s' caps else None
      | [] => None
      end
  | Cat r1 r2 => rmatch r1 s caps (fun s' caps' => rmatch r2 s' caps' k)
  | Alt r1 r2 =>
      match rmatch r1 s caps k with
      | Some c => Some c
      | None => rmatch r2 s caps k
      end
  | Opt r1 =>
      match rmatch r1 s caps k with
      | Some c => Some c
      | None => k s caps
      end
  | Plus p =>
      (fix more (t : list Z) : option (list (list Z)) :=
         match t with
         | x :: t' =>
             if p x then
               match more t' with
               | Some c => Some c
               | None => k t' caps
               end
             else None
         | [] => None
         end) s
  | Group r1 =>
      rmatch r1 s caps
        (fun s' caps' =>
           k s' (caps' ++ [take (length s - length s')%nat s]))
  end.

(** The leftmost position at which the expression matches, with the
    captures of that match. *)
Fixpoint match_from (r : regex) (s : list Z) (i : nat)
    : option (nat * list (list Z)) :=
  match rmatch r s [] (fun _ caps => Some caps) with
  | Some caps => Some (i, caps)
  | None =>
      match s with
      | [] => None
      | _ :: s' => match_from r s' (S i)
      end
  end.

(** [s.search(r)] *)
Definition search (r : regex) (s : list Z) : Z :=
  match match_from r s 0 with
  | Some (i, _) => Z.of_nat i
  | None => -1
  end.

(** [r.exec(s)], as the list of the captures of groups 1, 2, ...; [None] is
    [null]. *)
Definition exec (r : regex) (s : list Z) : option (list (list Z)) :=
  snd <$> match_from r s 0.

Fixpoint lit (s : list Z) : regex :=
  match s with
  | [] => Eps
  | c :: s' => Cat (Chr c) (lit s')
  end.

Definition is_sign (c : Z) : bool := (c =? 43) || (c =? 45).

Infix "+++" := Cat (at level 60, right associativity).

(** [/GMT([+-][0-9][0-9]:[0-9][0-9](:[0-9][0-9])?)?/] *)
Definition re_offset : regex :=
  lit (js "GMT") +++
  Opt (Group (Class is_sign +++ Class is_digit +++ Class is_digit +++
              Chr 58 +++ Class is_digit +++ Class is_digit +++
              Opt (Group (Chr 58 +++ Class is_digit +++ Class is_digit)))).

(** [/(\d+)\/(\d+)\/(\d+) (AD|BC),? (\d+):(\d+):(\d+)/] *)
Definition re_wall : regex :=
  Group (Plus is_digit) +++ Chr 47 +++ Group (Plus is_digit) +++ Chr 47 +++
  Group (Plus is_digit) +++ Chr 32 +++
  Group (Alt (lit (js "AD")) (lit (js "BC"))) +++ Opt (Chr 44) +++ Chr 32 +++
  Group (Plus is_digit) +++ Chr 58 +++ Group (Plus is_digit) +++ Chr 58 +++
  Group (Plus is_digit).

(** ** Plain objects used as maps

    [{}] inherits from [Object.prototype]: reading [o[key]] finds an own
    property first and an inherited one otherwise.  The inherited values are
    functions, or [Object.prototype] itself for [__proto__]; all of them are
    truthy and none of them has a [format] or [formatToParts] property. *)

Inductive builtin :=
| ObjectPrototype
| PrototypeFunction (name : list Z).

Inductive member (A : Type) :=
| Own (a : A)
| Inherited (b : builtin).
Arguments Own {A} a.
Arguments Inherited {A} b.

Definition Object_prototype_functions : list (list Z) :=
  map js ["constructor"; "__defineGetter__"; "__defineSetter__";
          "hasOwnProperty"; "__lookupGetter__"; "__lookupSetter__";
          "isPrototypeOf"; "propertyIsEnumerable"; "toString"; "valueOf";
          "toLocaleString"]%string.

Definition inherited_get (key : list Z) : option builtin :=
  if bool_decide (key = js "__proto__") then Some ObjectPrototype
  else if bool_decide (key ∈ Object_prototype_functions)
       then Some (PrototypeFunction key)
       else None.

(** [o[key]]; [None] is [undefined]. *)
Definition obj_get {A} (o : gmap (list Z) A) (key : list Z)
    : option (member A) :=
  match o !! key with
  | Some a => Some (Own a)
  | None => Inherited <$> inherited_get key
  end.

(** [o[key] = v], for a key that [o] does not inherit (the module stores
    only after it has read [undefined] under the same key). *)
Definition obj_set {A} (o : gmap (list Z) A) (key : list Z) (v : A)
    : gmap (list Z) A :=
  <[key := v]> o.

(** ** Arrays with holes *)

(** [a[i] = v]; writing past the end extends the array. *)
Definition array_set (a : list value) (i : nat) (v : value) : list value :=
  if (i <? length a)%nat then <[i := v]> a
  else a ++ replicate (i - length a) VUndefined ++ [v].

(** [a[i]] as read by a destructuring pattern. *)
Definition array_get (a : list value) (i : nat) : value :=
  default VUndefined (a !! i).

(** ** Calendar *)

(** Days from 1970-01-01 to the given day of the proleptic Gregorian
    calendar; a month outside 1..12 carries into the year. *)
Definition days_from_civil (y m d : Z) : Z :=
  let y1 := y + (m - 1) / 12 in
  let m1 := (m - 1) mod 12 + 1 in
  let y2 := if m1 <=? 2 then y1 - 1 else y1 in
  let era := y2 / 400 in
  let yoe := y2 - era * 400 in
  let mp := (m1 + 9) mod 12 in
  let doy := (153 * mp + 2) / 5 + d - 1 in
  let doe := yoe * 365 + yoe / 4 - yoe / 100 + doy in
  era * 146097 + doe - 719468.

Record DateObject := {
  year : value;
  month : value;
  day : value;
  hour : value;
  minute : value;
  second : value;
  millisecond : value;
}.

Definition to_integer (n : number) : option Z :=
  match n with
  | NaN => None
  | Num q => Some (Z.quot (Qnum q) (Zpos (Qden q)))
  end.

(** Modelled from the spec: [objToLocalTS] of [impl/util.js], which is not
    part of the sources at hand.  The spec has it "interpret the resulting
    (year, month, day, hour, minute, second, millisecond=0) tuple as if it
    were already expressed in UTC, and convert it to an epoch timestamp using
    standard proleptic Gregorian calendar rules".  The fields are converted
    to numbers the way every arithmetic built-in of the language does; one
    that is not a number makes the result [NaN]. *)
Definition objToLocalTS (obj : DateObject) : number :=
  match to_integer (ToNumber (year obj)), to_integer (ToNumber (month obj)),
        to_integer (ToNumber (day obj)), to_integer (ToNumber (hour obj)),
        to_integer (ToNumber (minute obj)), to_integer (ToNumber (second obj)),
        to_integer (ToNumber (millisecond obj)) with
  | Some y, Some mo, Some d, Some h, Some mi, Some s, Some ms =>
      num_of_Z (days_from_civil y mo d * 86400000 +
                h * 3600000 + mi * 60000 + s * 1000 + ms)
  | _, _, _, _, _, _, _ => NaN
  end.

(** ** The oracle *)

(** The three option bags the module constructs formatters with; the locale
    is always [en-US]. *)
Inductive options :=
| ZoneOnly      (* { timeZone } *)
| LongOffset    (* { timeZone, timeZoneName: "longOffset", year: "numeric" } *)
| WallFields.   (* { hour12: false, timeZone, year, month, day, hour, minute,
                     second, era } *)

Record DTF := { dtf_options : options; dtf_zone : list Z }.

Record Oracle := {
  (** [new Intl.DateTimeFormat("en-US", options)] returns a formatter;
      otherwise it throws a [RangeError] *)
  supports : options -> list Z -> bool;
  (** [dtf.format(t)] for a valid time value [t] *)
  format_text : options -> list Z -> Z -> list Z;
  (** the formatters have a [formatToParts] method *)
  has_formatToParts : bool;
  (** [dtf.formatToParts(t)], as pairs of [type] and [value] *)
  format_parts : options -> list Z -> Z -> list (list Z * list Z);
  (** [Date.now()] *)
  Date_now : Z;
}.

Inductive event :=
| NewDTF (o : options) (zone : list Z)
| Format (d : DTF)
| FormatToParts (d : DTF)
| Now.

(** ** Module state and the monad of its functions *)

Inductive resolver := directOffsetFn | calculatedOffsetFn.

Record IANAZone := { zoneName : list Z; valid : bool }.

Record state := {
  directOffsetDTFCache : gmap (list Z) DTF;
  calculatedOffsetDTFCache : gmap (list Z) DTF;
  ianaZoneCache : gmap (list Z) nat;
  offsetFunc : option resolver;
  heap : list IANAZone;
  trace : list event;
}.

(** The state when the module has just been loaded. *)
Definition initial : state :=
  {| directOffsetDTFCache := ∅; calculatedOffsetDTFCache := ∅;
     ianaZoneCache := ∅; offsetFunc := None; heap := []; trace := [] |}.

Inductive error :=
| RangeError
| TypeError
| Error (message : string).

Inductive outcome (A : Type) :=
| Ok (a : A)
| Throw (e : error).
Arguments Ok {A} a.
Arguments Throw {A} e.

Definition M (A : Type) : Type := state -> outcome A * state.

Definition ret {A} (a : A) : M A := fun s => (Ok a, s).

Definition throw {A} (e : error) : M A := fun s => (Throw e, s).

Definition bind {A B} (m : M A) (k : A -> M B) : M B :=
  fun s =>
    match m s with
    | (Ok a, s') => k a s'
    | (Throw e, s') => (Throw e, s')
    end.

(** [try { m } catch (e) { h }] *)
Definition try_catch {A} (m : M A) (h : M A) : M A :=
  fun s =>
    match m s with
    | (Ok a, s') => (Ok a, s')
    | (Throw _, s') => h s'
    end.

Definition get_state : M state := fun s => (Ok s, s).

Definition update (f : state -> state) : M unit := fun s => (Ok tt, f s).

Notation "'let*' x ':=' m 'in' k" := (bind m (fun x => k))
  (at level 10, x name, m at level 100, k at level 200).
Notation "m ;; k" := (bind m (fun _ => k))
  (at level 100, k at level 200, right associativity).

Definition set_directOffsetDTFCache (c : gmap (list Z) DTF) (s : state) :=
  {| directOffsetDTFCache := c;
     calculatedOffsetDTFCache := calculatedOffsetDTFCache s;
     ianaZoneCache := ianaZoneCache s; offsetFunc := offsetFunc s;
     heap := heap s; trace := trace s |}.

Definition set_calculatedOffsetDTFCache (c : gmap (list Z) DTF) (s : state) :=
  {| directOffsetDTFCache := directOffsetDTFCache s;
     calculatedOffsetDTFCache := c;
     ianaZoneCache := ianaZoneCache s; offsetFunc := offsetFunc s;
     heap := heap s; trace := trace s |}.

Definition set_ianaZoneCache (c : gmap (list Z) nat) (s : state) :=
  {| directOffsetDTFCache := directOffsetDTFCache s;
     calculatedOffsetDTFCache := calculatedOffsetDTFCache s;
     ianaZoneCache := c; offsetFunc := offsetFunc s;
     heap := heap s; trace := trace s |}.

Definition set_offsetFunc (f : option resolver) (s : state) :=
  {| directOffsetDTFCache := directOffsetDTFCache s;
     calculatedOffsetDTFCache := calculatedOffsetDTFCache s;
     ianaZoneCache := ianaZoneCache s; offsetFunc := f;
     heap := heap s; trace := trace s |}.

Definition set_heap (h : list IANAZone) (s : state) :=
  {| directOffsetDTFCache := directOffsetDTFCache s;
     calculatedOffsetDTFCache := calculatedOffsetDTFCache s;
     ianaZoneCache := ianaZoneCache s; offsetFunc := offsetFunc s;
     heap := h; trace := trace s |}.

Definition log (evs : list event) (s : state) :=
  {| directOffsetDTFCache := directOffsetDTFCache s;
     calculatedOffsetDTFCache := calculatedOffsetDTFCache s;
     ianaZoneCache := ianaZoneCache s; offsetFunc := offsetFunc s;
     heap := heap s; trace := trace s ++ evs |}.

(** A call of the oracle is recorded. *)
Definition emit (e : event) : M unit := update (log [e]).

(** ** The module *)

Section IANAZone.

Variable O : Oracle.

(** [new Intl.DateTimeFormat("en-US", options)] *)
Definition new_DateTimeFormat (o : options) (zone : list Z) : M DTF :=
  emit (NewDTF o zone);;
  if supports O o zone then ret {| dtf_options := o; dtf_zone := zone |}
  else throw RangeError.

(** [dtf.format(t)] on whatever a cache lookup returned: something that is
    not a formatter has no [format] method, and a formatter rejects an
    invalid time value. *)
Definition dtf_format (dtf : option (member DTF)) (t : number) : M (list Z) :=
  match dtf with
  | Some (Own d) =>
      emit (Format d);;
      match time_clip t with
      | Some tv => ret (format_text O (dtf_options d) (dtf_zone d) tv)
      | None => throw RangeError
      end
  | _ => throw TypeError
  end.

(** [dtf.format()]: the current time is always a valid time value. *)
Definition dtf_format_now (d : DTF) : M (list Z) :=
  emit (Format d);;
  ret (format_text O (dtf_options d) (dtf_zone d) (Date_now O)).

(** [makeDirectOffsetDTF] *)
Definition makeDirectOffsetDTF (zone : list Z) : M (option (member DTF)) :=
  let* s := get_state in
  (match obj_get (directOffsetDTFCache s) zone with
   | None =>
       let* d := new_DateTimeFormat LongOffset zone in
       update (fun s' =>
         set_directOffsetDTFCache (obj_set (directOffsetDTFCache s') zone d) s')
   | Some _ => ret tt
   end);;
  let* s := get_state in
  ret (obj_get (directOffsetDTFCache s) zone).

(** [makeCalculatedOffsetDTF] *)
Definition makeCalculatedOffsetDTF (zone : list Z) : M (option (member DTF)) :=
  let* s := get_state in
  (match obj_get (calculatedOffsetDTFCache s) zone with
   | None =>
       let* d := new_DateTimeFormat WallFields zone in
       update (fun s' =>
         set_calculatedOffsetDTFCache
           (obj_set (calculatedOffsetDTFCache s') zone d) s')
   | Some _ => ret tt
   end);;
  let* s := get_state in
  ret (obj_get (calculatedOffsetDTFCache s) zone).

(** [typeToPos], a plain object like the caches. *)
Definition typeToPos : gmap (list Z) nat :=
  list_to_map [(js "year", 0%nat); (js "month", 1%nat); (js "day", 2%nat);
               (js "era", 3%nat); (js "hour", 4%nat); (js "minute", 5%nat);
               (js "second", 6%nat)].

(** [hackyOffset]: the seven captures, as strings. *)
Definition hackyOffset (dtf : option (member DTF)) (date : Z)
    : M (list value) :=
  let* text := dtf_format dtf (num_of_Z date) in
  let formatted := strip_lrm text in
  match exec re_wall formatted with
  | Some [fMonth; fDay; fYear; fadOrBc; fHour; fMinute; fSecond] =>
      ret (map VString [fYear; fMonth; fDay; fadOrBc; fHour; fMinute; fSecond])
  | _ => throw TypeError
  end.

(** The loop of [partsOffset].  A [type] that [typeToPos] only inherits from
    [Object.prototype] makes [pos] a function: the assignment then creates a
    property that is no element of the array. *)
Fixpoint fill_parts (formatted : list (list Z * list Z)) (filled : list value)
    : list value :=
  match formatted with
  | [] => filled
  | (type, val) :: rest =>
      let pos := obj_get typeToPos type in
      fill_parts rest
        (if bool_decide (type = js "era") then
           match pos with
           | Some (Own i) => array_set filled i (VString val)
           | _ => filled
           end
         else
           match pos with
           | None => filled
           | Some (Own i) => array_set filled i (VNumber (parseInt val))
           | Some (Inherited _) => filled
           end)
  end.

(** [partsOffset] *)
Definition partsOffset (d : DTF) (date : Z) : M (list value) :=
  emit (FormatToParts d);;
  ret (fill_parts (format_parts O (dtf_options d) (dtf_zone d) date) []).

(** [const adjustedHour = hour === 24 ? 0 : hour] *)
Definition adjustedHour (h : value) : value :=
  if strict_eq h (VNumber (Num 24)) then VNumber (Num 0) else h.

(** [if (adOrBc === "BC") year = -Math.abs(year) + 1] *)
Definition era_year (y adOrBc : value) : value :=
  if strict_eq adOrBc (VString (js "BC"))
  then VNumber (nadd (nneg (Math_abs (ToNumber y))) (Num 1))
  else y.

(** The object handed to [objToLocalTS]. *)
Definition wall_object (fields : list value) : DateObject :=
  {| year := era_year (array_get fields 0) (array_get fields 3);
     month := array_get fields 1;
     day := array_get fields 2;
     hour := adjustedHour (array_get fields 4);
     minute := array_get fields 5;
     second := array_get fields 6;
     millisecond := VNumber (Num 0) |}.

(** [asTS], the instant with its milliseconds dropped; [%] is the remainder
    with the sign of the dividend. *)
Definition floor_to_second (date : Z) : Z :=
  let over := Z.rem date 1000 in
  date - (if 0 <=? over then over else 1000 + over).

(** The arithmetic of [calculatedOffset] once the fields are known. *)
Definition offset_of_fields (fields : list value) (date : Z) : number :=
  let asUTC := objToLocalTS (wall_object fields) in
  let asTS := floor_to_second date in
  ndiv (nsub asUTC (num_of_Z asTS)) (num_of_Z (60 * 1000)).

(** [calculatedOffset] *)
Definition calculatedOffset (zone : list Z) (ts : number) : M number :=
  match time_clip ts with
  | None => ret NaN
  | Some date =>
      let* dtf := makeCalculatedOffsetDTF zone in
      let* fields :=
        match dtf with
        | None => throw TypeError
        | Some (Own d) =>
            if has_formatToParts O then partsOffset d date
            else hackyOffset dtf date
        | Some (Inherited _) => hackyOffset dtf date
        end in
      ret (offset_of_fields fields date)
  end.

(** What [directOffset] computes from the text the formatter returned. *)
Definition offset_of_text (formatted : list Z) : number :=
  let idx := search re_offset formatted in
  let sign := charCodeAt formatted (idx + 3) in
  if isNaN sign then Num 0
  else
    nmul (nsub (Num 44) sign)
      (nadd (nadd (nmul (StringToNumber (slice formatted (idx + 4) (idx + 6)))
                        (Num 60))
                  (StringToNumber (slice formatted (idx + 7) (idx + 9))))
            (ndiv (StringToNumber (slice formatted (idx + 10) (idx + 12)))
                  (Num 60))).

(** [directOffset]: the formatter is made outside the [try], only the call
    of [format] is guarded. *)
Definition directOffset (zone : list Z) (ts : number) : M number :=
  let* dtf := makeDirectOffsetDTF zone in
  let* formatted :=
    try_catch (let* f := dtf_format dtf ts in ret (Some f)) (ret None) in
  match formatted with
  | None => ret NaN
  | Some f => ret (offset_of_text f)
  end.

(** [IANAZone.isValidZone]; the empty string is the falsy string. *)
Definition isValidZone (zone : list Z) : M bool :=
  match zone with
  | [] => ret false
  | _ =>
      try_catch
        (let* d := new_DateTimeFormat ZoneOnly zone in
         dtf_format_now d;;
         ret true)
        (ret false)
  end.

(** [IANAZone.isValidSpecifier] *)
Definition isValidSpecifier (s : list Z) : M bool := isValidZone s.

(** [new IANAZone(name)]: the reference of the new object. *)
Definition new_IANAZone (name : list Z) : M nat :=
  let* v := isValidZone name in
  let* s := get_state in
  update (set_heap (heap s ++ [{| zoneName := name; valid := v |}]));;
  ret (length (heap s)).

(** [IANAZone.create] *)
Definition create (name : list Z) : M (option (member nat)) :=
  let* s := get_state in
  (match obj_get (ianaZoneCache s) name with
   | None =>
       let* z := new_IANAZone name in
       update (fun s' =>
         set_ianaZoneCache (obj_set (ianaZoneCache s') name z) s')
   | Some _ => ret tt
   end);;
  let* s := get_state in
  ret (obj_get (ianaZoneCache s) name).

(** [IANAZone.resetCache] *)
Definition resetCache : M unit :=
  update (set_ianaZoneCache ∅);;
  update (set_calculatedOffsetDTFCache ∅);;
  update (set_directOffsetDTFCache ∅).

(** The body of the [try] in [offset]: [||] evaluates its right operand
    only when the left one is false. *)
Definition probe : M unit :=
  emit Now;;
  let ts := num_of_Z (Date_now O) in
  let* d0 := directOffset (js "Etc/GMT") ts in
  let* bad :=
    if negb (num_strict_eq d0 (Num 0)) then ret true
    else
      let* d1 := directOffset (js "Etc/GMT+1") ts in
      if negb (num_strict_eq d1 (Num (-60))) then ret true
      else
        let* d2 := directOffset (js "Etc/GMT-1") ts in
        ret (negb (num_strict_eq d2 (Num 60))) in
  if bad then throw (Error "Invalid offset")
  else update (set_offsetFunc (Some directOffsetFn)).

Definition call_resolver (f : resolver) : list Z -> number -> M number :=
  match f with
  | directOffsetFn => directOffset
  | calculatedOffsetFn => calculatedOffset
  end.

(** [offset], on a zone object whose [name] is [name]. *)
Definition offset (name : list Z) (ts : number) : M number :=
  let* s := get_state in
  (match offsetFunc s with
   | None =>
       try_catch probe (update (set_offsetFunc (Some calculatedOffsetFn)))
   | Some _ => ret tt
   end);;
  let* s := get_state in
  match offsetFunc s with
  | Some f => call_resolver f name ts
  | None => throw TypeError
  end.

(** *** Callers

    What the rest of the library can do with the module.  A caller that
    catches an exception goes on with the state the call left behind. *)

Inductive call :=
| CallCreate (name : list Z)
| CallNew (name : list Z)
| CallResetCache
| CallIsValidZone (s : list Z)
| CallIsValidSpecifier (s : list Z)
| CallOffset (name : list Z) (ts : number).

Definition step (c : call) (s : state) : state :=
  match c with
  | CallCreate name => snd (create name s)
  | CallNew name => snd (new_IANAZone name s)
  | CallResetCache => snd (resetCache s)
  | CallIsValidZone z => snd (isValidZone z s)
  | CallIsValidSpecifier z => snd (isValidSpecifier z s)
  | CallOffset name ts => snd (offset name ts s)
  end.

Fixpoint run (cs : list call) (s : state) : state :=
  match cs with
  | [] => s
  | c :: cs' => run cs' (step c s)
  end.

End IANAZone.

(** ** The getters and [equals]

    [get name()] and [get isValid()] are the fields [zoneName] and [valid]. *)

(** [get type()] *)
Definition IANAZone_type (z : IANAZone) : list Z := js "iana".

(** [get isUniversal()] *)
Definition isUniversal (z : IANAZone) : bool := false.

(** Any zone object, as [equals] reads it: its [type] and its [name]. *)
Record Zone := { zone_type : value; zone_name : value }.

(** An [IANAZone] where a zone is expected. *)
Definition as_zone (z : IANAZone) : Zone :=
  {| zone_type := VString (IANAZone_type z);
     zone_name := VString (zoneName z) |}.

(** [equals] *)
Definition equals (this : IANAZone) (otherZone : Zone) : bool :=
  strict_eq (zone_type otherZone) (VString (js "iana")) &&
  strict_eq (zone_name otherZone) (VString (zoneName this)).

(** ** An oracle to run the module against

    A table of zones with a fixed offset (in seconds east of UTC), printed
    the way [en-US] formatters print: [2020, GMT+05:30] for the offset text
    and [01/02/2020 AD, 00:00:00] for the wall-clock fields.  The flags
    choose whether the [longOffset] style and [formatToParts] exist, and
    whether midnight is printed as hour 24. *)

Definition civil_from_days (z0 : Z) : Z * Z * Z :=
  let z := z0 + 719468 in
  let era := z / 146097 in
  let doe := z - era * 146097 in
  let yoe := (doe - doe / 1460 + doe / 36524 - doe / 146096) / 365 in
  let doy := doe - (365 * yoe + yoe / 4 - yoe / 100) in
  let mp := (5 * doy + 2) / 153 in
  let d := doy - (153 * mp + 2) / 5 + 1 in
  let m := if mp <? 10 then mp + 3 else mp - 9 in
  (yoe + era * 400 + (if m <=? 2 then 1 else 0), m, d).

Definition two_digits (n : Z) : list Z := [48 + n / 10; 48 + n mod 10].

Fixpoint decimal_fuel (fuel : nat) (n : Z) (acc : list Z) : list Z :=
  match fuel with
  | O => acc
  | S fuel' =>
      let acc' := (48 + n mod 10) :: acc in
      if n <? 10 then acc' else decimal_fuel fuel' (n / 10) acc'
  end.

(** The decimal digits of a natural number. *)
Definition decimal (n : Z) : list Z := decimal_fuel 20 n [].

(** [GMT], [GMT+hh:mm] or [GMT+hh:mm:ss] for an offset in seconds. *)
Definition offset_token (o : Z) : list Z :=
  if o =? 0 then js "GMT"
  else
    let a := Z.abs o in
    js "GMT" ++ [if 0 <? o then 43 else 45] ++ two_digits (a / 3600) ++
    [58] ++ two_digits (a / 60 mod 60) ++
    (if a mod 60 =? 0 then [] else 58 :: two_digits (a mod 60)).

Record wall_clock := {
  w_year : Z; w_month : Z; w_day : Z;
  w_hour : Z; w_minute : Z; w_second : Z;
}.

(** The wall clock that shows [secs] seconds after the epoch. *)
Definition wall_of_seconds (secs : Z) : wall_clock :=
  let '(y, m, d) := civil_from_days (secs / 86400) in
  let r := secs mod 86400 in
  {| w_year := y; w_month := m; w_day := d;
     w_hour := r / 3600; w_minute := r / 60 mod 60; w_second := r mod 60 |}.

Definition era_of (y : Z) : list Z := if 0 <? y then js "AD" else js "BC".
Definition year_of_era (y : Z) : Z := if 0 <? y then y else 1 - y.
Definition shown_hour (h24 : bool) (h : Z) : Z :=
  if h24 && (h =? 0) then 24 else h.

Definition wall_parts (h24 : bool) (w : wall_clock) : list (list Z * list Z) :=
  [(js "month", two_digits (w_month w)); (js "literal", js "/");
   (js "day", two_digits (w_day w)); (js "literal", js "/");
   (js "year", decimal (year_of_era (w_year w))); (js "literal", js " ");
   (js "era", era_of (w_year w)); (js "literal", js ", ");
   (js "hour", two_digits (shown_hour h24 (w_hour w)));
   (js "literal", js ":"); (js "minute", two_digits (w_minute w));
   (js "literal", js ":"); (js "second", two_digits (w_second w))].

Definition table_lookup (zones : list (list Z * Z)) (zone : list Z)
    : option Z :=
  snd <$> find (fun p => bool_decide (fst p = zone)) zones.

Definition table_oracle (zones : list (list Z * Z))
    (longOffset parts h24 : bool) (now : Z) : Oracle :=
  let off zone := default 0 (table_lookup zones zone) in
  {| supports := fun o zone =>
       match table_lookup zones zone, o with
       | None, _ => false
       | Some _, LongOffset => longOffset
       | Some _, _ => true
       end;
     format_text := fun o zone t =>
       let w := wall_of_seconds (t / 1000 + off zone) in
       match o with
       | LongOffset =>
           decimal (year_of_era (w_year w)) ++ js ", " ++
           offset_token (off zone)
       | _ => concat (map snd (wall_parts h24 w))
       end;
     has_formatToParts := parts;
     format_parts := fun o zone t =>
       wall_parts h24 (wall_of_seconds (t / 1000 + off zone));
     Date_now := now |}.

Definition zone_table : list (list Z * Z) :=
  [(js "Etc/GMT", 0); (js "Etc/GMT+1", -3600); (js "Etc/GMT-1", 3600);
   (js "Asia/Kolkata", 19800); (js "Europe/Amsterdam", 1172)].

(** An engine with every feature; one without [longOffset]; one with
    neither [longOffset] nor [formatToParts] that prints midnight as 24. *)
Definition modern : Oracle :=
  table_oracle zone_table true true true 1600000000000.
Definition no_longOffset : Oracle :=
  table_oracle zone_table false true true 1600000000000.
Definition legacy : Oracle :=
  table_oracle zone_table false false true 1600000000000.

(** * The vocabulary of the properties

    The notions in which the properties below are stated. *)

(** ** What a computation leaves of the state

    A relation between the state before and the state after is [stable]
    under a computation when every run of it, returning or throwing, relates
    the two. *)

Definition stable {A} (R : relation state) (m : M A) : Prop :=
  forall s, R s (snd (m s)).

(** A component of the state is kept. *)
Definition keeps {X} (proj : state -> X) : relation state :=
  fun s s' => proj s' = proj s.

(** A predicate that holds before holds after. *)
Definition preserves (P : state -> Prop) : relation state :=
  fun s s' => P s -> P s'.

(** Only new events are added to the trace, and all of them satisfy [P]. *)
Definition trace_grows (P : event -> Prop) : relation state :=
  fun s s' => exists evs, trace s' = trace s ++ evs /\ Forall P evs.

(** The events recorded between two states. *)
Definition new_events (s s' : state) : list event :=
  drop (length (trace s)) (trace s').

(** ** Validity, and what the caches hold *)

(** The validity flag a name gets. *)
Definition valid_name (O : Oracle) (zone : list Z) : bool :=
  bool_decide (zone <> []) && supports O ZoneOnly zone.

(** The oracle calls the validator makes for a name. *)
Definition validator_calls (O : Oracle) (zone : list Z) : list event :=
  match zone with
  | [] => []
  | _ =>
      NewDTF ZoneOnly zone ::
      (if supports O ZoneOnly zone
       then [Format {| dtf_options := ZoneOnly; dtf_zone := zone |}]
       else [])
  end.

(** What holds of the three caches in every state the module can reach. *)
Record cache_ok (O : Oracle) (s : state) : Prop := {
  direct_ok : forall k d,
    directOffsetDTFCache s !! k = Some d ->
    supports O LongOffset k = true /\ inherited_get k = None /\
    d = {| dtf_options := LongOffset; dtf_zone := k |};
  calculated_ok : forall k d,
    calculatedOffsetDTFCache s !! k = Some d ->
    supports O WallFields k = true /\ inherited_get k = None /\
    d = {| dtf_options := WallFields; dtf_zone := k |};
  zones_ok : forall k r,
    ianaZoneCache s !! k = Some r -> inherited_get k = None;
}.

(** ** The strategy *)

(** The resolver returned, and returned the expected number. *)
Definition returns (r : outcome number) (expected : number) : bool :=
  match r with
  | Ok d => num_strict_eq d expected
  | Throw _ => false
  end.

(** The probe in the words of the specification: the Direct resolver is
    asked about the zero-offset zone, the zone fixed at -60 minutes and the
    zone fixed at +60 minutes, one after the other at the current time; the
    probe passes when none of the three raises and each returns the value
    expected of it. *)
Definition probe_passes (O : Oracle) (s : state) : bool :=
  let ts := num_of_Z (Date_now O) in
  let '(r0, s1) := directOffset O (js "Etc/GMT") ts (log [Now] s) in
  let '(r1, s2) := directOffset O (js "Etc/GMT+1") ts s1 in
  let '(r2, _) := directOffset O (js "Etc/GMT-1") ts s2 in
  returns r0 (Num 0) && returns r1 (Num (-60)) && returns r2 (Num 60).


(** ** Offsets and their text *)

(** An offset of [o] seconds, in minutes. *)
Definition minutes_of_seconds (o : Z) : number := Num (Qred (o # 60)).

(** The continuation that accepts whatever is left. *)
Definition accept : list Z -> list (list Z) -> option (list (list Z)) :=
  fun _ caps => Some caps.

(** Two numbers are the same, fraction for fraction. *)
Definition num_eqb (a b : number) : bool :=
  match a, b with
  | NaN, NaN => true
  | Num x, Num y => (Qnum x =? Qnum y) && (Qden x =? Qden y)%positive
  | _, _ => false
  end.







(** ** Wall clocks and their parts *)

(** What one part contributes to the array. *)
Definition part_value (type val : list Z) : value :=
  if bool_decide (type = js "era") then VString val
  else VNumber (parseInt val).




(** The seconds from the epoch at which a clock in UTC shows [w]. *)
Definition seconds_of_wall (w : wall_clock) : Z :=
  days_from_civil (w_year w) (w_month w) (w_day w) * 86400 +
  w_hour w * 3600 + w_minute w * 60 + w_second w.




(** ** The caches over a run *)

(** The entries a cache has are still there, unchanged. *)
Definition entries_kept {A} (cache : state -> gmap (list Z) A)
    : relation state :=
  fun s s' => forall k v,
    obj_get (cache s) k = Some v -> obj_get (cache s') k = Some v.

(** Every entry of the identity cache refers to a zone of that name, with
    the validity the validator gives the name. *)
Definition heap_ok (O : Oracle) (s : state) : Prop :=
  forall k r,
    ianaZoneCache s !! k = Some r ->
    heap s !! r = Some {| zoneName := k; valid := valid_name O k |}.

(** ** The texts the resolvers read *)

(** The text starts with [GMT]. *)
Definition starts_GMT (s : list Z) : bool :=
  match s with
  | a :: b :: c :: _ => (a =? 71) && (b =? 77) && (c =? 84)
  | _ => false
  end.

(** The first position at which [GMT] occurs, counted from [i]. *)
Fixpoint first_GMT (s : list Z) (i : nat) : option nat :=
  if starts_GMT s then Some i
  else match s with
       | [] => None
       | _ :: s' => first_GMT s' (S i)
       end.

(** A non-empty run of digits. *)
Definition digits (ds : list Z) : Prop :=
  ds <> [] /\ Forall (fun x => is_digit x = true) ds.

(** The text does not go on with a digit. *)
Definition stops (rest : list Z) : Prop :=
  match rest with
  | [] => True
  | x :: _ => is_digit x = false
  end.

Section PlusLoop.

Variable p : Z -> bool.
Variable k : list Z -> option (list (list Z)).

(** The loop [rmatch] runs for a [+], on its own. *)
Fixpoint more (t : list Z) : option (list (list Z)) :=
  match t with
  | x :: t' =>
      if p x then
        match more t' with
        | Some c => Some c
        | None => k t'
        end
      else None
  | [] => None
  end.

End PlusLoop.

(** The optional comma after the era. *)
Definition comma_text (comma : bool) : list Z := if comma then [44] else [].

(** The text [m/d/y era[,] h:m:s] followed by [post]. *)
Definition wall_text (mon day yr era : list Z) (comma : bool)
    (hr mn sc post : list Z) : list Z :=
  mon ++ 47 :: day ++ 47 :: yr ++ 32 :: era ++ comma_text comma ++
  32 :: hr ++ 58 :: mn ++ 58 :: sc ++ post.

(** The run of digits [ds] writes the number [n]. *)
Definition numeral (ds : list Z) (n : Z) : Prop :=
  digits ds /\ digits_value 0 ds = n.

(** The oracle's text for the zone at [t] shows the wall clock [w], midnight
    as hour 24 when [h24] is set and a year before 1 counted in the BC era. *)
Definition prints_wall (O : Oracle) (z : list Z) (t : Z) (h24 : bool)
    (w : wall_clock) : Prop :=
  exists pre mon day yr comma hr mn sc post,
    strip_lrm (format_text O WallFields z t) =
      pre ++ wall_text mon day yr (era_of (w_year w)) comma hr mn sc post /\
    Forall (fun x => is_digit x = false) pre /\ stops post /\
    numeral mon (w_month w) /\ numeral day (w_day w) /\
    numeral yr (year_of_era (w_year w)) /\
    numeral hr (shown_hour h24 (w_hour w)) /\
    numeral mn (w_minute w) /\ numeral sc (w_second w).

(** * Properties *)

(** ** The model at work *)

Example ex_number_strings :
  StringToNumber (js "05") = Num 5 /\ StringToNumber [] = Num 0 /\
  StringToNumber (js " 2") = Num 2 /\ StringToNumber (js "0:") = NaN /\
  StringToNumber (js ".5") = Num (1 # 2) /\ parseInt (js "024") = Num 24 /\
  slice (js "2020, GMT+05:30") 10 12 = js "05" /\
  charCodeAt (js "GMT") 3 = NaN /\ time_clip (Num (-3 # 2)) = Some (-1).
Proof. vm_compute. repeat split. Qed.

Example ex_regex :
  search re_offset (js "2020, GMT-01:00") = 6 /\
  search re_offset (js "2020") = -1 /\
  exec re_wall (js "x 1/2/2020 AD, 24:00:05 y") =
    Some (map js ["1"; "2"; "2020"; "AD"; "24"; "00"; "05"]%string) /\
  exec re_wall (js "1/2/2020 24:00:05") = None.
Proof. vm_compute. repeat split. Qed.

Example ex_calendar :
  days_from_civil 1970 1 1 = 0 /\ days_from_civil 2000 3 1 = 11017 /\
  days_from_civil 0 1 1 = -719528 /\ days_from_civil 2019 13 1 = 18262.
Proof. vm_compute. repeat split. Qed.

Example ex_oracle :
  format_text modern LongOffset (js "Etc/GMT+1") 1577836800000 = js "2019, GMT-01:00" /\
  format_text modern WallFields (js "Etc/GMT") 1577836800000 = js "01/01/2020 AD, 24:00:00" /\
  format_text modern LongOffset (js "Europe/Amsterdam") (-2208988800000) = js "1900, GMT+00:19:32" /\
  format_text modern WallFields (js "Etc/GMT") (-62198755200000) = js "01/01/2 BC, 24:00:00".
Proof. vm_compute. repeat split. Qed.

(** ** Stability follows the structure of the program

    For a preorder, a computation built from stable parts is stable. *)

Section Stable.

Context (R : relation state) `{!PreOrder R}.

Lemma stable_ret {A} (a : A) : stable R (ret a).
Proof. intros s. simpl. reflexivity. Qed.

Lemma stable_throw {A} (e : error) : stable R (@throw A e).
Proof. intros s. simpl. reflexivity. Qed.

Lemma stable_get_state : stable R get_state.
Proof. intros s. simpl. reflexivity. Qed.

Lemma stable_update (f : state -> state) :
  (forall s, R s (f s)) -> stable R (update f).
Proof. intros H s. apply H. Qed.

Lemma stable_bind {A B} (m : M A) (k : A -> M B) :
  stable R m -> (forall a, stable R (k a)) -> stable R (bind m k).
Proof.
  intros Hm Hk s. unfold bind. specialize (Hm s).
  destruct (m s) as [[a|e] s']; simpl in *; [|done].
  etransitivity; [apply Hm | apply Hk].
Qed.

Lemma stable_try_catch {A} (m h : M A) :
  stable R m -> stable R h -> stable R (try_catch m h).
Proof.
  intros Hm Hh s. unfold try_catch. specialize (Hm s).
  destruct (m s) as [[a|e] s']; simpl in *; [done|].
  etransitivity; [apply Hm | apply Hh].
Qed.

End Stable.

#[local] Instance keeps_preorder {X} (proj : state -> X) : PreOrder (keeps proj).
Proof. split; unfold keeps; [done | intros s1 s2 s3; congruence]. Qed.

#[local] Instance preserves_preorder (P : state -> Prop) : PreOrder (preserves P).
Proof.
  split; [intros s H; exact H | intros s1 s2 s3 H1 H2 H; exact (H2 (H1 H))].
Qed.

Create HintDb stable.

Ltac stable_step :=
  first
    [ solve [eauto with stable]
    | apply stable_ret; apply _ | apply stable_throw; apply _
    | apply stable_get_state; apply _
    | apply stable_bind; [apply _ | | intros ?]
    | apply stable_try_catch; [apply _ | |]
    | match goal with
      | |- stable _ (match ?x with _ => _ end) => destruct x
      end ].

Ltac stable_tac := repeat stable_step.

(** Side conditions of the frame rules for a component that is kept. *)
Ltac kept :=
  first [ assumption | apply _
        | intros; unfold keeps; simpl; reflexivity ].

Ltac munfold :=
  unfold bind, ret, throw, try_catch, get_state, update, emit in *;
  simpl in *.

Section Frames.

Variable O : Oracle.

Lemma obj_get_set {A} (o : gmap (list Z) A) k v :
  obj_get (obj_set o k v) k = Some (Own v).
Proof. unfold obj_get, obj_set. by rewrite lookup_insert_eq. Qed.

Lemma obj_get_own {A} (o : gmap (list Z) A) k v :
  obj_get o k = Some (Own v) <-> o !! k = Some v.
Proof.
  unfold obj_get. destruct (o !! k) as [a|]; simpl.
  - split; congruence.
  - destruct (inherited_get k); simpl; split; congruence.
Qed.

Lemma obj_get_None {A} (o : gmap (list Z) A) k :
  obj_get o k = None <-> o !! k = None /\ inherited_get k = None.
Proof.
  unfold obj_get. destruct (o !! k) as [a|]; simpl.
  - split; [congruence | intros [? ?]; congruence].
  - destruct (inherited_get k); simpl.
    + split; [discriminate | intros [_ ?]; discriminate].
    + split; auto.
Qed.

(** *** The functions in closed form *)

Lemma makeDirectOffsetDTF_eq zone s :
  makeDirectOffsetDTF O zone s =
  match obj_get (directOffsetDTFCache s) zone with
  | Some v => (Ok (Some v), s)
  | None =>
      let s1 := log [NewDTF LongOffset zone] s in
      if supports O LongOffset zone then
        let d := {| dtf_options := LongOffset; dtf_zone := zone |} in
        (Ok (Some (Own d)),
         set_directOffsetDTFCache (obj_set (directOffsetDTFCache s) zone d) s1)
      else (Throw RangeError, s1)
  end.
Proof.
  unfold makeDirectOffsetDTF, new_DateTimeFormat. munfold.
  destruct (obj_get (directOffsetDTFCache s) zone) eqn:E; simpl.
  - by rewrite E.
  - destruct (supports O LongOffset zone); simpl; [|done].
    by rewrite obj_get_set.
Qed.

Lemma makeCalculatedOffsetDTF_eq zone s :
  makeCalculatedOffsetDTF O zone s =
  match obj_get (calculatedOffsetDTFCache s) zone with
  | Some v => (Ok (Some v), s)
  | None =>
      let s1 := log [NewDTF WallFields zone] s in
      if supports O WallFields zone then
        let d := {| dtf_options := WallFields; dtf_zone := zone |} in
        (Ok (Some (Own d)),
         set_calculatedOffsetDTFCache
           (obj_set (calculatedOffsetDTFCache s) zone d) s1)
      else (Throw RangeError, s1)
  end.
Proof.
  unfold makeCalculatedOffsetDTF, new_DateTimeFormat. munfold.
  destruct (obj_get (calculatedOffsetDTFCache s) zone) eqn:E; simpl.
  - by rewrite E.
  - destruct (supports O WallFields zone); simpl; [|done].
    by rewrite obj_get_set.
Qed.

Lemma directOffset_eq zone ts s :
  directOffset O zone ts s =
  match makeDirectOffsetDTF O zone s with
  | (Throw e, s1) => (Throw e, s1)
  | (Ok (Some (Own d)), s1) =>
      (Ok match time_clip ts with
          | Some tv =>
              offset_of_text (format_text O (dtf_options d) (dtf_zone d) tv)
          | None => NaN
          end,
       log [Format d] s1)
  | (Ok _, s1) => (Ok NaN, s1)
  end.
Proof.
  unfold directOffset, bind at 1.
  destruct (makeDirectOffsetDTF O zone s) as [[dtf|e] s1]; [|done].
  destruct dtf as [[d|b]|]; munfold; try done.
  by destruct (time_clip ts).
Qed.

Lemma log_nil s : log [] s = s.
Proof. destruct s. unfold log. simpl. by rewrite app_nil_r. Qed.

Lemma log_log evs1 evs2 s : log evs2 (log evs1 s) = log (evs1 ++ evs2) s.
Proof. unfold log. simpl. by rewrite app_assoc. Qed.

Lemma isValidZone_eq zone s :
  isValidZone O zone s = (Ok (valid_name O zone), log (validator_calls O zone) s).
Proof.
  unfold isValidZone, valid_name, validator_calls.
  destruct zone as [|c zone]; [by rewrite log_nil|].
  unfold new_DateTimeFormat, dtf_format_now. munfold.
  destruct (supports O ZoneOnly (c :: zone)); simpl; [|done].
  by rewrite log_log.
Qed.

Lemma new_IANAZone_eq name s :
  new_IANAZone O name s =
  (Ok (length (heap s)),
   set_heap (heap s ++ [{| zoneName := name; valid := valid_name O name |}])
     (log (validator_calls O name) s)).
Proof. unfold new_IANAZone, bind. rewrite isValidZone_eq. done. Qed.

Lemma create_eq name s :
  create O name s =
  match obj_get (ianaZoneCache s) name with
  | Some v => (Ok (Some v), s)
  | None =>
      (Ok (Some (Own (length (heap s)))),
       set_ianaZoneCache (obj_set (ianaZoneCache s) name (length (heap s)))
         (set_heap
            (heap s ++ [{| zoneName := name; valid := valid_name O name |}])
            (log (validator_calls O name) s)))
  end.
Proof.
  unfold create, bind at 1. simpl.
  destruct (obj_get (ianaZoneCache s) name) eqn:E.
  - munfold. by rewrite E.
  - unfold bind at 1. unfold bind at 1. rewrite new_IANAZone_eq.
    munfold. by rewrite obj_get_set.
Qed.

Lemma resetCache_eq s :
  resetCache s =
  (Ok tt,
   {| directOffsetDTFCache := ∅; calculatedOffsetDTFCache := ∅;
      ianaZoneCache := ∅; offsetFunc := offsetFunc s; heap := heap s;
      trace := trace s |}).
Proof. done. Qed.

Lemma offset_resolved name ts s f :
  offsetFunc s = Some f -> offset O name ts s = call_resolver O f name ts s.
Proof. intros H. unfold offset. munfold. by rewrite H; simpl; rewrite H. Qed.

End Frames.

#[local] Instance trace_grows_preorder P : PreOrder (trace_grows P).
Proof.
  split.
  - intros s. exists []. by rewrite app_nil_r.
  - intros s1 s2 s3 (e1 & H1 & F1) (e2 & H2 & F2). exists (e1 ++ e2).
    rewrite H2, H1, app_assoc. split; [done | by apply Forall_app].
Qed.

(** *** Frame rules for the functions of the module

    A preorder that tolerates the recording of oracle calls and the filling
    of the two formatter caches is stable under both resolvers and under the
    validator; one that also tolerates allocation is stable under the
    constructor; one that tolerates the assignment to [offsetFunc] is stable
    under [offset]. *)

Section FormatterCaches.

Variable O : Oracle.
Context (R : relation state) `{!PreOrder R}.
Hypothesis R_emit : forall e s, e <> Now -> R s (log [e] s).
Hypothesis R_set_direct : forall c s, R s (set_directOffsetDTFCache c s).
Hypothesis R_set_calculated :
  forall c s, R s (set_calculatedOffsetDTFCache c s).

Lemma stable_emit_plain e : e <> Now -> stable R (emit e).
Proof. intros H. apply stable_update. auto. Qed.

Lemma stable_makeDirectOffsetDTF_plain zone :
  stable R (makeDirectOffsetDTF O zone).
Proof.
  unfold makeDirectOffsetDTF, new_DateTimeFormat. stable_tac.
  - by apply stable_emit_plain.
  - apply stable_update; auto.
Qed.

Lemma stable_makeCalculatedOffsetDTF_plain zone :
  stable R (makeCalculatedOffsetDTF O zone).
Proof.
  unfold makeCalculatedOffsetDTF, new_DateTimeFormat. stable_tac.
  - by apply stable_emit_plain.
  - apply stable_update; auto.
Qed.

End FormatterCaches.

Section Resolvers.

Variable O : Oracle.
Context (R : relation state) `{!PreOrder R}.
Hypothesis R_emit : forall e s, e <> Now -> R s (log [e] s).
Hypothesis R_direct : forall zone, stable R (makeDirectOffsetDTF O zone).
Hypothesis R_calculated :
  forall zone, stable R (makeCalculatedOffsetDTF O zone).

Lemma stable_emit e : e <> Now -> stable R (emit e).
Proof. intros H. apply stable_update. auto. Qed.

Lemma stable_new_DateTimeFormat o zone :
  stable R (new_DateTimeFormat O o zone).
Proof. unfold new_DateTimeFormat. stable_tac. by apply stable_emit. Qed.

Lemma stable_dtf_format dtf t : stable R (dtf_format O dtf t).
Proof. unfold dtf_format. stable_tac. by apply stable_emit. Qed.

Lemma stable_dtf_format_now d : stable R (dtf_format_now O d).
Proof. unfold dtf_format_now. stable_tac. by apply stable_emit. Qed.

#[local] Hint Resolve stable_new_DateTimeFormat stable_dtf_format
  stable_dtf_format_now R_direct R_calculated : stable.

Lemma stable_directOffset zone ts : stable R (directOffset O zone ts).
Proof. unfold directOffset. stable_tac. Qed.

Lemma stable_calculatedOffset zone ts : stable R (calculatedOffset O zone ts).
Proof.
  unfold calculatedOffset, partsOffset, hackyOffset. stable_tac.
  by apply stable_emit.
Qed.

Lemma stable_call_resolver f zone ts : stable R (call_resolver O f zone ts).
Proof.
  destruct f; [apply stable_directOffset | apply stable_calculatedOffset].
Qed.

Lemma stable_isValidZone zone : stable R (isValidZone O zone).
Proof. unfold isValidZone. stable_tac. Qed.

Hypothesis R_heap : forall h s, R s (set_heap h s).

Lemma stable_new_IANAZone name : stable R (new_IANAZone O name).
Proof.
  unfold new_IANAZone. stable_tac.
  - apply stable_isValidZone.
  - apply stable_update. auto.
Qed.

Hypothesis R_now : forall s, R s (log [Now] s).
Hypothesis R_offsetFunc : forall f s, R s (set_offsetFunc f s).

#[local] Hint Resolve stable_directOffset stable_call_resolver : stable.

Lemma stable_probe : stable R (probe O).
Proof.
  unfold probe. stable_tac.
  all: apply stable_update; auto.
Qed.

Lemma stable_offset name ts : stable R (offset O name ts).
Proof.
  unfold offset. stable_tac.
  all: first [apply stable_probe | apply stable_update; auto].
Qed.

End Resolvers.

(** *** Well-formed caches

    What holds of the three caches in every state the module can reach: a
    formatter cache holds, under a zone name, the formatter the oracle built
    for that name, and no cache has an own property that shadows one
    inherited from [Object.prototype]. *)

Section Invariant.

Variable O : Oracle.

Lemma cache_ok_initial : cache_ok O initial.
Proof. split; simpl; intros k x; by rewrite lookup_empty. Qed.

Lemma cache_ok_same s s' :
  directOffsetDTFCache s' = directOffsetDTFCache s ->
  calculatedOffsetDTFCache s' = calculatedOffsetDTFCache s ->
  ianaZoneCache s' = ianaZoneCache s ->
  cache_ok O s -> cache_ok O s'.
Proof.
  intros E1 E2 E3 [H1 H2 H3]. split; rewrite ?E1, ?E2, ?E3; assumption.
Qed.

Lemma cache_ok_makeDirectOffsetDTF zone :
  stable (preserves (cache_ok O)) (makeDirectOffsetDTF O zone).
Proof.
  intros s Hs. rewrite makeDirectOffsetDTF_eq.
  destruct (obj_get (directOffsetDTFCache s) zone) eqn:E; simpl; [done|].
  apply obj_get_None in E as [E1 E2].
  destruct (supports O LongOffset zone) eqn:Hz; simpl.
  - destruct Hs as [H1 H2 H3]. split; simpl; try assumption.
    intros k d. unfold obj_set. rewrite lookup_insert.
    case_decide as Hk; [|apply H1].
    intros [= <-]. by subst k.
  - by apply (cache_ok_same s).
Qed.

Lemma cache_ok_makeCalculatedOffsetDTF zone :
  stable (preserves (cache_ok O)) (makeCalculatedOffsetDTF O zone).
Proof.
  intros s Hs. rewrite makeCalculatedOffsetDTF_eq.
  destruct (obj_get (calculatedOffsetDTFCache s) zone) eqn:E; simpl; [done|].
  apply obj_get_None in E as [E1 E2].
  destruct (supports O WallFields zone) eqn:Hz; simpl.
  - destruct Hs as [H1 H2 H3]. split; simpl; try assumption.
    intros k d. unfold obj_set. rewrite lookup_insert.
    case_decide as Hk; [|apply H2].
    intros [= <-]. by subst k.
  - by apply (cache_ok_same s).
Qed.

Lemma cache_ok_create name : stable (preserves (cache_ok O)) (create O name).
Proof.
  intros s Hs. rewrite create_eq.
  destruct (obj_get (ianaZoneCache s) name) eqn:E; simpl; [done|].
  apply obj_get_None in E as [E1 E2].
  destruct Hs as [H1 H2 H3]. split; simpl; try assumption.
  intros k r. unfold obj_set. rewrite lookup_insert.
  case_decide as Hk; [|apply H3].
  intros _. by subst k.
Qed.

Lemma cache_ok_step c : forall s, cache_ok O s -> cache_ok O (step O c s).
Proof.
  assert (Hlog : forall e s, e <> Now -> preserves (cache_ok O) s (log [e] s))
    by (intros e s _; unfold preserves; by apply cache_ok_same).
  assert (Hheap : forall h s, preserves (cache_ok O) s (set_heap h s))
    by (intros h s; unfold preserves; by apply cache_ok_same).
  destruct c as [name|name| |z|z|name ts]; simpl; intros s.
  - apply cache_ok_create.
  - apply (stable_new_IANAZone O (preserves (cache_ok O))); auto using
      cache_ok_makeDirectOffsetDTF, cache_ok_makeCalculatedOffsetDTF.
  - intros _. split; simpl; intros k x; by rewrite lookup_empty.
  - apply (stable_isValidZone O (preserves (cache_ok O))); auto using
      cache_ok_makeDirectOffsetDTF, cache_ok_makeCalculatedOffsetDTF.
  - apply (stable_isValidZone O (preserves (cache_ok O))); auto using
      cache_ok_makeDirectOffsetDTF, cache_ok_makeCalculatedOffsetDTF.
  - apply (stable_offset O (preserves (cache_ok O))); auto using
      cache_ok_makeDirectOffsetDTF, cache_ok_makeCalculatedOffsetDTF.
    + intros s'. unfold preserves. by apply cache_ok_same.
    + intros f s'. unfold preserves. by apply cache_ok_same.
Qed.

Lemma cache_ok_run cs : forall s, cache_ok O s -> cache_ok O (run O cs s).
Proof.
  induction cs as [|c cs IH]; intros s Hs; simpl; [done|].
  by apply IH, cache_ok_step.
Qed.

Lemma cache_ok_reachable cs : cache_ok O (run O cs initial).
Proof. apply cache_ok_run, cache_ok_initial. Qed.

End Invariant.

(** ** The validator *)

(** C7.  [isValidZone] answers [false] for the empty string, the one falsy
    string, and leaves the state as it was: no call of the oracle is
    recorded.  For every other string it never throws, and its answer is
    whether the oracle built the formatter with nothing but the zone in its
    options; the trace then starts with that very construction. *)
Theorem isValidZone_answers (O : Oracle) (s : state) :
  isValidZone O [] s = (Ok false, s) /\
  forall (c : Z) (z : list Z),
    fst (isValidZone O (c :: z) s) = Ok (supports O ZoneOnly (c :: z)) /\
    exists evs,
      trace (snd (isValidZone O (c :: z) s)) =
      trace s ++ NewDTF ZoneOnly (c :: z) :: evs.
Proof.
  split.
  - rewrite isValidZone_eq. simpl. by rewrite log_nil.
  - intros c z. rewrite isValidZone_eq. simpl. split; [done|]. eauto.
Qed.

(** ** The identity cache *)

Section IdentityCache.

Variable O : Oracle.

Lemma create_hit name s v :
  obj_get (ianaZoneCache s) name = Some v ->
  create O name s = (Ok (Some v), s).
Proof. intros H. by rewrite create_eq, H. Qed.

Lemma create_returns_entry name s :
  exists v,
    fst (create O name s) = Ok (Some v) /\
    obj_get (ianaZoneCache (snd (create O name s))) name = Some v.
Proof.
  rewrite create_eq.
  destruct (obj_get (ianaZoneCache s) name) as [v|] eqn:E; simpl.
  - eauto.
  - eexists. split; [done|]. apply obj_get_set.
Qed.


Lemma keeps_ianaZoneCache_step c s :
  (forall name, c <> CallCreate name) -> c <> CallResetCache ->
  ianaZoneCache (step O c s) = ianaZoneCache s.
Proof.
  assert (Hd : forall zone,
    stable (keeps ianaZoneCache) (makeDirectOffsetDTF O zone))
    by (intros; apply stable_makeDirectOffsetDTF_plain; kept).
  assert (Hc : forall zone,
    stable (keeps ianaZoneCache) (makeCalculatedOffsetDTF O zone))
    by (intros; apply stable_makeCalculatedOffsetDTF_plain; kept).
  intros H1 H2.
  destruct c as [name|name| |z|z|name ts]; simpl.
  - by destruct (H1 name).
  - apply (stable_new_IANAZone O (keeps ianaZoneCache)); kept.
  - done.
  - apply (stable_isValidZone O (keeps ianaZoneCache)); kept.
  - apply (stable_isValidZone O (keeps ianaZoneCache)); kept.
  - apply (stable_offset O (keeps ianaZoneCache)); kept.
Qed.




(** C10.  For a name that a plain object inherits from [Object.prototype]
    ([toString], [constructor], [__proto__], ...), in every state the
    module can reach, [create] returns the inherited value, which is no
    zone, and leaves the state exactly as it was: no zone is constructed (the
    heap is the same), the validator does not run (the trace is the same)
    and nothing is stored (the cache is the same). *)
Theorem create_inherited_name (cs : list call) (name : list Z) (b : builtin) :
  inherited_get name = Some b ->
  create O name (run O cs initial) =
  (Ok (Some (Inherited b)), run O cs initial).
Proof.
  intros Hb. apply create_hit. unfold obj_get.
  destruct (ianaZoneCache (run O cs initial) !! name) as [r|] eqn:E.
  - apply (zones_ok O _ (cache_ok_reachable O cs)) in E. congruence.
  - by rewrite Hb.
Qed.

End IdentityCache.

(** ** The strategy selector *)

Section Strategy.

Variable O : Oracle.

Lemma keeps_offsetFunc_makeDirect zone :
  stable (keeps offsetFunc) (makeDirectOffsetDTF O zone).
Proof. apply stable_makeDirectOffsetDTF_plain; kept. Qed.

Lemma keeps_offsetFunc_makeCalculated zone :
  stable (keeps offsetFunc) (makeCalculatedOffsetDTF O zone).
Proof. apply stable_makeCalculatedOffsetDTF_plain; kept. Qed.

Lemma keeps_offsetFunc_directOffset zone ts :
  stable (keeps offsetFunc) (directOffset O zone ts).
Proof.
  apply stable_directOffset;
    auto using keeps_offsetFunc_makeDirect; kept.
Qed.

Lemma keeps_offsetFunc_resolver f zone ts :
  stable (keeps offsetFunc) (call_resolver O f zone ts).
Proof.
  apply stable_call_resolver;
    auto using keeps_offsetFunc_makeDirect, keeps_offsetFunc_makeCalculated;
    kept.
Qed.

Lemma probe_selects s :
  offsetFunc
    (snd (try_catch (probe O)
            (update (set_offsetFunc (Some calculatedOffsetFn))) s)) =
  Some (if probe_passes O s then directOffsetFn else calculatedOffsetFn).
Proof.
  unfold probe_passes, probe. munfold.
  destruct (directOffset O _ _ (log [Now] s)) as [[d0|e0] s1]; simpl.
  - destruct (num_strict_eq d0 (Num 0)); simpl.
    + destruct (directOffset O _ _ s1) as [[d1|e1] s2]; simpl.
      * destruct (num_strict_eq d1 (Num (-60))); simpl.
        -- destruct (directOffset O _ _ s2) as [[d2|e2] s3]; simpl; [|done].
           by destruct (num_strict_eq d2 (Num 60)).
        -- by destruct (directOffset O _ _ s2) as [[d2|e2] s3].
      * by destruct (directOffset O _ _ s2) as [[d2|e2] s3].
    + destruct (directOffset O _ _ s1) as [[d1|e1] s2];
        by destruct (directOffset O _ _ s2) as [[d2|e2] s3].
  - destruct (directOffset O _ _ s1) as [[d1|e1] s2];
      by destruct (directOffset O _ _ s2) as [[d2|e2] s3].
Qed.

Lemma offset_unresolved name ts s :
  offsetFunc s = None ->
  offsetFunc (snd (offset O name ts s)) =
  Some (if probe_passes O s then directOffsetFn else calculatedOffsetFn).
Proof.
  intros H. pose proof (probe_selects s) as Hp.
  unfold offset. unfold bind at 1. simpl. rewrite H.
  unfold bind at 1.
  destruct (try_catch _ _ s) as [[[]|e] s1] eqn:E; simpl in *.
  - unfold bind. simpl. rewrite Hp.
    rewrite (keeps_offsetFunc_resolver _ name ts s1). exact Hp.
  - exact Hp.
Qed.

Lemma keeps_offsetFunc_step c s :
  (forall name ts, c <> CallOffset name ts) ->
  offsetFunc (step O c s) = offsetFunc s.
Proof.
  intros Hc. destruct c as [name|name| |z|z|name ts]; simpl.
  - rewrite create_eq. by destruct (obj_get _ _).
  - by rewrite new_IANAZone_eq.
  - done.
  - by rewrite isValidZone_eq.
  - unfold isValidSpecifier. by rewrite isValidZone_eq.
  - by destruct (Hc name ts).
Qed.

Lemma resolved_step c s f :
  offsetFunc s = Some f -> offsetFunc (step O c s) = Some f.
Proof.
  intros H. destruct c as [name|name| |z|z|name ts];
    try (rewrite keeps_offsetFunc_step; [done | intros; discriminate]).
  simpl. rewrite (offset_resolved O name ts s f H).
  by rewrite (keeps_offsetFunc_resolver _ name ts s).
Qed.

(** C5.  The strategy is unresolved when the module is loaded and no call
    other than [offset] resolves it.  The first [offset] of any zone runs
    the probe and selects the Direct resolver exactly when the probe passes,
    the Calculated one otherwise.  Once resolved, no call changes the
    selection, and an [offset] is nothing but a call of the selected
    resolver: the probe is not run again. *)
Theorem strategy_resolved_once (s : state) (name : list Z) (ts : number)
    (c : call) (f : resolver) :
  offsetFunc initial = None /\
  ((forall n t, c <> CallOffset n t) ->
   offsetFunc (step O c s) = offsetFunc s) /\
  (offsetFunc s = None ->
   offsetFunc (snd (offset O name ts s)) =
   Some (if probe_passes O s then directOffsetFn else calculatedOffsetFn)) /\
  (offsetFunc s = Some f ->
   offsetFunc (step O c s) = Some f /\
   offset O name ts s = call_resolver O f name ts s).
Proof.
  split; [done|]. split; [apply keeps_offsetFunc_step|].
  split; [apply offset_unresolved|].
  intros H. split; [by apply resolved_step | by apply offset_resolved].
Qed.

End Strategy.

(** ** Resetting the caches *)

Section Reset.

Variable O : Oracle.

Abbreviation quiet := (trace_grows (fun e => e <> Now)).
Abbreviation grows := (trace_grows (fun _ => True)).

Lemma trace_grows_same P s s' : trace s' = trace s -> trace_grows P s s'.
Proof. intros H. exists []. by rewrite H, app_nil_r. Qed.

Lemma trace_grows_log (P : event -> Prop) e s : P e -> trace_grows P s (log [e] s).
Proof. intros H. exists [e]. split; [done | by constructor]. Qed.

Lemma new_events_app s s' evs :
  trace s' = trace s ++ evs -> new_events s s' = evs.
Proof. intros H. unfold new_events. by rewrite H, drop_app_length. Qed.

Lemma quiet_resolver f name ts : stable quiet (call_resolver O f name ts).
Proof.
  apply stable_call_resolver; try apply _.
  - intros e s He. by apply trace_grows_log.
  - intros zone. apply stable_makeDirectOffsetDTF_plain; try apply _.
    + intros e s He. by apply trace_grows_log.
    + intros c s. by apply trace_grows_same.
  - intros zone. apply stable_makeCalculatedOffsetDTF_plain; try apply _.
    + intros e s He. by apply trace_grows_log.
    + intros c s. by apply trace_grows_same.
Qed.

Lemma grows_directOffset zone ts : stable grows (directOffset O zone ts).
Proof.
  apply stable_directOffset; try apply _.
  - intros e s He. by apply trace_grows_log.
  - intros z. apply stable_makeDirectOffsetDTF_plain; try apply _.
    + intros e s He. by apply trace_grows_log.
    + intros c s. by apply trace_grows_same.
Qed.

Lemma grows_resolver f name ts : stable grows (call_resolver O f name ts).
Proof.
  intros s. destruct (quiet_resolver f name ts s) as (evs & H & _).
  exists evs. split; [done | by apply Forall_true].
Qed.

#[local] Hint Resolve grows_directOffset grows_resolver : stable.

Lemma bind_get_state {A} (k : state -> M A) s : bind get_state k s = k s s.
Proof. done. Qed.

Lemma bind_emit {A} e (k : M A) s :
  bind (emit e) (fun _ => k) s = k (log [e] s).
Proof. done. Qed.

Lemma grows_probe s : grows (log [Now] s) (snd (probe O s)).
Proof.
  unfold probe. rewrite bind_emit.
  match goal with
  | |- grows ?s0 (snd (?m ?s0)) => assert (stable grows m) as Hrest
  end.
  { stable_tac. apply stable_update. intros s'. by apply trace_grows_same. }
  apply Hrest.
Qed.

(** An unresolved strategy makes [offset] call [Date.now()], the first
    thing the probe does. *)
Lemma offset_unresolved_probes name ts s :
  offsetFunc s = None ->
  exists evs, trace (snd (offset O name ts s)) = trace s ++ Now :: evs.
Proof.
  intros H.
  assert (grows (log [Now] s) (snd (offset O name ts s))) as (evs & E & _).
  { unfold offset. rewrite bind_get_state, H. cbv iota.
    match goal with
    | |- grows _ (snd (bind ?m ?k s)) =>
        assert (grows (log [Now] s) (snd (m s))) as Hm;
        [| assert (forall a, stable grows (k a)) as Hk ]
    end.
    - unfold try_catch. pose proof (grows_probe s) as Hp.
      destruct (probe O s) as [[[]|e] s1]; [exact Hp|].
      etransitivity; [exact Hp|]. by apply trace_grows_same.
    - intros a. stable_tac.
    - unfold bind at 1.
      destruct (try_catch _ _ s) as [[[]|e] s1]; [|exact Hm].
      etransitivity; [exact Hm | apply (Hk tt)]. }
  exists evs. rewrite E. simpl. by rewrite <- app_assoc.
Qed.

Lemma offset_resolved_quiet name ts s f :
  offsetFunc s = Some f ->
  Now ∉ new_events s (snd (offset O name ts s)).
Proof.
  intros H. rewrite (offset_resolved O name ts s f H).
  destruct (quiet_resolver f name ts s) as (evs & E & Hq).
  rewrite (new_events_app _ _ _ E). intros Hin.
  rewrite Forall_forall in Hq. by apply (Hq Now).
Qed.

(** C4, as the code has it.  [resetCache] empties the three caches and
    touches nothing else: the selected strategy, the heap and the trace stay.
    A [create] that follows, for a name that is not inherited from
    [Object.prototype], returns a reference to a zone constructed then, at a
    position the heap did not have before the reset.  The next [offset] runs
    the probe exactly when no strategy had been selected before the reset. *)
Theorem resetCache_effect (s : state) (name : list Z) (ts : number) :
  let s1 := snd (resetCache s) in
  ((ianaZoneCache s1 = ∅) /\ (directOffsetDTFCache s1 = ∅) /\
   (calculatedOffsetDTFCache s1 = ∅)) /\
  (offsetFunc s1 = offsetFunc s /\ heap s1 = heap s /\ trace s1 = trace s) /\
  (inherited_get name = None ->
   fst (create O name s1) = Ok (Some (Own (length (heap s)))) /\
   heap s !! length (heap s) = None /\
   heap (snd (create O name s1)) !! length (heap s) =
   Some {| zoneName := name; valid := valid_name O name |}) /\
  (Now ∈ new_events s1 (snd (offset O name ts s1)) <-> offsetFunc s = None).
Proof.
  rewrite resetCache_eq. simpl. repeat split.
  - rewrite create_eq. simpl. unfold obj_get. by rewrite lookup_empty, H.
  - by apply lookup_ge_None.
  - rewrite create_eq. simpl. unfold obj_get. rewrite lookup_empty, H. simpl.
    by rewrite lookup_app_r, Nat.sub_diag.
  - intros Hin. destruct (offsetFunc s) as [f|] eqn:E; [|done].
    exfalso. revert Hin. by apply (offset_resolved_quiet _ _ _ f).
  - intros E.
    match goal with
    | |- Now ∈ new_events ?s1 _ =>
        destruct (offset_unresolved_probes name ts s1 E) as (evs & Hevs)
    end.
    rewrite (new_events_app _ _ _ Hevs). apply elem_of_cons. by left.
Qed.

End Reset.

Lemma resetCache_effect_witness :
  inherited_get (js "Etc/GMT") = None /\
  fst (create modern (js "Etc/GMT")
         (snd (resetCache (run modern [CallCreate (js "Etc/GMT")] initial)))) =
  Ok (Some (Own 1%nat)).
Proof.
  split; [reflexivity|].
  apply (resetCache_effect modern
           (run modern [CallCreate (js "Etc/GMT")] initial)
           (js "Etc/GMT") NaN).
  reflexivity.
Defined.

(** The claim read literally: after [resetCache()] the next [offset()] runs
    the probe again.  Here a strategy is selected, the caches are reset, and
    the next [offset] makes a formatter and formats with it, nothing more. *)
Lemma resetCache_keeps_strategy :
  let s := run modern [CallOffset (js "Etc/GMT") (Num 0); CallResetCache]
             initial in
  (directOffsetDTFCache s = ∅) /\
  offsetFunc s = Some directOffsetFn /\
  new_events s (snd (offset modern (js "Etc/GMT") (Num 0) s)) =
  [NewDTF LongOffset (js "Etc/GMT");
   Format {| dtf_options := LongOffset; dtf_zone := js "Etc/GMT" |}] /\
  ~ Now ∈ new_events s (snd (offset modern (js "Etc/GMT") (Num 0) s)).
Proof.
  assert (new_events
            (run modern [CallOffset (js "Etc/GMT") (Num 0); CallResetCache]
               initial)
            (snd (offset modern (js "Etc/GMT") (Num 0)
                    (run modern
                       [CallOffset (js "Etc/GMT") (Num 0); CallResetCache]
                       initial))) =
          [NewDTF LongOffset (js "Etc/GMT");
           Format {| dtf_options := LongOffset; dtf_zone := js "Etc/GMT" |}])
    as E by (vm_compute; reflexivity).
  cbv zeta. rewrite E. repeat split; try (vm_compute; reflexivity).
  intros Hin. apply elem_of_cons in Hin as [Hin|Hin]; [discriminate|].
  apply elem_of_cons in Hin as [Hin|Hin]; [discriminate|].
  by apply elem_of_nil in Hin.
Qed.


Lemma create_inherited_name_witness :
  inherited_get (js "__proto__") = Some ObjectPrototype /\
  create modern (js "__proto__")
    (run modern [CallCreate (js "Etc/GMT")] initial) =
  (Ok (Some (Inherited ObjectPrototype)),
   run modern [CallCreate (js "Etc/GMT")] initial).
Proof.
  split; [reflexivity|].
  apply (create_inherited_name modern [CallCreate (js "Etc/GMT")]).
  reflexivity.
Defined.

Lemma strategy_resolved_once_witness :
  offsetFunc (snd (offset modern (js "Asia/Kolkata") (Num 0) initial)) =
  Some directOffsetFn /\
  offsetFunc (snd (offset no_longOffset (js "Asia/Kolkata") (Num 0) initial)) =
  Some calculatedOffsetFn /\
  offsetFunc
    (step modern CallResetCache
       (snd (offset modern (js "Asia/Kolkata") (Num 0) initial))) =
  Some directOffsetFn /\
  offsetFunc (step modern (CallCreate (js "Etc/GMT")) initial) =
  offsetFunc initial.
Proof.
  assert (offsetFunc
            (snd (offset modern (js "Asia/Kolkata") (Num 0) initial)) =
          Some directOffsetFn) as H1.
  { destruct (strategy_resolved_once modern initial (js "Asia/Kolkata")
                (Num 0) CallResetCache directOffsetFn) as (_ & _ & H & _).
    rewrite (H eq_refl). vm_compute. reflexivity. }
  split; [exact H1|]. split; [|split].
  - destruct (strategy_resolved_once no_longOffset initial
                (js "Asia/Kolkata") (Num 0) CallResetCache directOffsetFn)
      as (_ & _ & H & _).
    rewrite (H eq_refl). vm_compute. reflexivity.
  - destruct (strategy_resolved_once modern
                (snd (offset modern (js "Asia/Kolkata") (Num 0) initial))
                (js "Asia/Kolkata") (Num 0) CallResetCache directOffsetFn)
      as (_ & _ & _ & H).
    exact (proj1 (H H1)).
  - destruct (strategy_resolved_once modern initial (js "Asia/Kolkata")
                (Num 0) (CallCreate (js "Etc/GMT")) directOffsetFn)
      as (_ & H & _).
    apply H. intros n t. discriminate.
Defined.

(** ** Decoding the offset text *)

Lemma rmatch_offset_here rest :
  is_Some (rmatch re_offset (71 :: 77 :: 84 :: rest) [] accept).
Proof.
  unfold re_offset. change (js "GMT") with [71; 77; 84]. simpl.
  match goal with |- is_Some (match ?x with _ => _ end) => destruct x end; eauto.
Qed.

Lemma rmatch_offset_miss x s :
  x <> 71 -> rmatch re_offset (x :: s) [] accept = None.
Proof.
  intros H. unfold re_offset. change (js "GMT") with [71; 77; 84]. simpl.
  destruct (x =? 71) eqn:E; [lia | done].
Qed.

Lemma match_from_offset pre rest i :
  Forall (fun x => x <> 71) pre ->
  exists caps,
    match_from re_offset (pre ++ 71 :: 77 :: 84 :: rest) i =
    Some ((i + length pre)%nat, caps).
Proof.
  intros H. revert i. induction H as [|x pre Hx Hpre IH]; intros i.
  - destruct (rmatch_offset_here rest) as [caps E]. exists caps.
    cbn [app match_from]. fold accept. rewrite E. by rewrite Nat.add_0_r.
  - destruct (IH (S i)) as [caps E]. exists caps.
    cbn [app match_from]. fold accept. rewrite (rmatch_offset_miss x _ Hx).
    rewrite E. replace (S i + length pre)%nat with (i + length (x :: pre))%nat
      by (simpl; lia). done.
Qed.

Lemma search_offset pre rest :
  Forall (fun x => x <> 71) pre ->
  search re_offset (pre ++ 71 :: 77 :: 84 :: rest) = Z.of_nat (length pre).
Proof.
  intros H. unfold search.
  destruct (match_from_offset pre rest 0 H) as [caps ->]. done.
Qed.

Lemma slice_nonneg s a b :
  0 <= a <= b ->
  slice s a b = take (Z.to_nat (b - a)) (drop (Z.to_nat a) s).
Proof.
  intros H. unfold slice.
  destruct (a <? 0) eqn:Ea; [lia|]. destruct (b <? 0) eqn:Eb; [lia|].
  destruct (Z_lt_le_dec a (Z.of_nat (length s))) as [Ha|Ha].
  - rewrite (Z.min_l a) by lia.
    destruct (Z_le_gt_dec b (Z.of_nat (length s))) as [Hb|Hb].
    + by rewrite (Z.min_l b) by lia.
    + rewrite (Z.min_r b) by lia.
      rewrite !take_ge; [done | |]; rewrite length_drop; lia.
  - rewrite (Z.min_r a) by lia. rewrite !drop_ge by lia. by rewrite !take_nil.
Qed.

Lemma slice_app pre body a b :
  0 <= a <= b ->
  slice (pre ++ body) (Z.of_nat (length pre) + a) (Z.of_nat (length pre) + b) =
  take (Z.to_nat (b - a)) (drop (Z.to_nat a) body).
Proof.
  intros H. rewrite slice_nonneg by lia.
  replace (Z.of_nat (length pre) + b - (Z.of_nat (length pre) + a)) with (b - a) by lia.
  replace (Z.to_nat (Z.of_nat (length pre) + a)) with (length pre + Z.to_nat a)%nat by lia.
  by rewrite drop_app_add.
Qed.

Lemma charCodeAt_app pre body k :
  0 <= k ->
  charCodeAt (pre ++ body) (Z.of_nat (length pre) + k) =
  match body !! Z.to_nat k with Some c => num_of_Z c | None => NaN end.
Proof.
  intros H. unfold charCodeAt.
  destruct (Z.of_nat (length pre) + k <? 0) eqn:E; [apply Z.ltb_lt in E; lia|].
  replace (Z.to_nat (Z.of_nat (length pre) + k)) with (length pre + Z.to_nat k)%nat by lia.
  by rewrite lookup_app_r, Nat.add_comm, Nat.add_sub by lia.
Qed.

Lemma num_eqb_eq a b : num_eqb a b = true -> a = b.
Proof.
  destruct a as [|[a1 a2]], b as [|[b1 b2]]; simpl; try done.
  intros [H1 H2]%andb_true_iff. apply Z.eqb_eq in H1. apply Pos.eqb_eq in H2.
  by subst.
Qed.

Lemma two_digits_number h :
  0 <= h < 100 -> StringToNumber (two_digits h) = num_of_Z h.
Proof.
  intros H.
  assert (forallb (fun h => num_eqb (StringToNumber (two_digits h)) (num_of_Z h))
            (seqZ 0 100) = true) as F by (vm_compute; reflexivity).
  rewrite forallb_forall in F. apply num_eqb_eq, F.
  apply list_elem_of_In, elem_of_seqZ. lia.
Qed.

Lemma direct_arithmetic c h m s :
  nmul (nsub (Num 44) (num_of_Z c))
    (nadd (nadd (nmul (num_of_Z h) (Num 60)) (num_of_Z m))
       (ndiv (num_of_Z s) (Num 60))) =
  minutes_of_seconds ((44 - c) * (h * 3600 + m * 60 + s)).
Proof.
  unfold minutes_of_seconds, num_of_Z. simpl. f_equal. apply Qred_complete.
  rewrite !Qred_correct. unfold Qeq, Qdiv, Qmult, Qplus, Qminus, Qopp, Qinv, inject_Z. simpl.
  lia.
Qed.

Lemma two_digits_app n l :
  two_digits n ++ l = (48 + n / 10) :: (48 + n mod 10) :: l.
Proof. done. Qed.

Lemma take_two_digits n l :
  take 2 ((48 + n / 10) :: (48 + n mod 10) :: l) = two_digits n.
Proof. done. Qed.




(** ** Decoding the wall-clock fields *)

(** *** Numbers that are integers *)

Lemma Qred_inject_Z z : Qred (inject_Z z) = inject_Z z.
Proof.
  unfold Qred, inject_Z.
  pose proof (Z.ggcd_gcd z 1) as Hg.
  pose proof (Z.ggcd_correct_divisors z 1) as Hd.
  destruct (Z.ggcd z 1) as [g [r1 r2]]. simpl in *.
  rewrite Z.gcd_1_r in Hg. subst g. destruct Hd as [Hz H1].
  assert (r2 = 1) as -> by lia. assert (r1 = z) as -> by lia. done.
Qed.

Lemma nadd_Z a b : nadd (num_of_Z a) (num_of_Z b) = num_of_Z (a + b).
Proof.
  unfold nadd, num_of_Z. f_equal. rewrite <- (Qred_inject_Z (a + b)).
  apply Qred_complete. by rewrite inject_Z_plus.
Qed.

Lemma nsub_Z a b : nsub (num_of_Z a) (num_of_Z b) = num_of_Z (a - b).
Proof.
  unfold nsub, num_of_Z. f_equal. rewrite <- (Qred_inject_Z (a - b)).
  apply Qred_complete. unfold Z.sub. by rewrite inject_Z_plus, inject_Z_opp.
Qed.

Lemma nneg_Z a : nneg (num_of_Z a) = num_of_Z (- a).
Proof.
  unfold nneg, num_of_Z. f_equal. rewrite <- (Qred_inject_Z (- a)).
  apply Qred_complete. by rewrite inject_Z_opp.
Qed.

Lemma Math_abs_Z a : Math_abs (num_of_Z a) = num_of_Z (Z.abs a).
Proof.
  unfold Math_abs, num_of_Z. f_equal. rewrite <- (Qred_inject_Z (Z.abs a)).
  apply Qred_complete. done.
Qed.

Lemma to_integer_Z z : to_integer (num_of_Z z) = Some z.
Proof. unfold to_integer, num_of_Z. simpl. by rewrite Z.quot_1_r. Qed.


Lemma floor_to_second_div t : floor_to_second t = 1000 * (t / 1000).
Proof.
  unfold floor_to_second.
  pose proof (Z.quot_rem' t 1000) as Hq.
  pose proof (Z.div_mod t 1000 ltac:(lia)) as Hd.
  pose proof (Z.mod_pos_bound t 1000 ltac:(lia)) as Hm.
  destruct (Z_le_gt_dec 0 t) as [Ht|Ht].
  - pose proof (Z.rem_bound_pos t 1000 Ht ltac:(lia)) as Hr.
    rewrite Z.rem_mod_nonneg in * by lia.
    destruct (0 <=? t mod 1000) eqn:E; [lia|]. apply Z.leb_gt in E. lia.
  - pose proof (Z.rem_bound_pos_neg t 1000 ltac:(lia) ltac:(lia)) as Hr.
    destruct (0 <=? Z.rem t 1000) eqn:E.
    + apply Z.leb_le in E. assert (Z.rem t 1000 = 0) as Hz by lia.
      rewrite Hz in *.
      assert (t mod 1000 = 0) as Hz'.
      { apply Z.rem_divide in Hz; [|lia]. by apply Z.mod_divide. }
      lia.
    + apply Z.leb_gt in E.
      assert (t mod 1000 = 1000 + Z.rem t 1000) as Hz.
      { symmetry. apply (Z.mod_unique_pos t 1000 (Z.quot t 1000 - 1)); lia. }
      lia.
Qed.

(** *** The loop of [partsOffset] *)

Lemma lookup_array_set a i v j :
  array_set a i v !! j =
  if decide (j = i) then Some v
  else if decide (j < length a)%nat then a !! j
  else if decide (j < i)%nat then Some VUndefined else None.
Proof.
  unfold array_set. destruct (i <? length a)%nat eqn:E.
  - apply Nat.ltb_lt in E. destruct (decide (j = i)) as [->|Hne].
    + by rewrite list_lookup_insert_eq.
    + rewrite list_lookup_insert_ne by done.
      destruct (decide (j < length a)%nat) as [Hj|Hj]; [done|].
      rewrite lookup_ge_None_2 by lia.
      destruct (decide (j < i)%nat); [lia | done].
  - apply Nat.ltb_ge in E. destruct (decide (j = i)) as [->|Hne].
    + rewrite lookup_app_r by lia.
      rewrite lookup_app_r by (rewrite length_replicate; lia).
      rewrite length_replicate.
      by replace (i - length a - (i - length a))%nat with 0%nat by lia.
    + destruct (decide (j < length a)%nat) as [Hj|Hj].
      * by rewrite lookup_app_l.
      * rewrite lookup_app_r by lia.
        destruct (decide (j < i)%nat) as [Hi|Hi].
        -- rewrite lookup_app_l by (rewrite length_replicate; lia).
           rewrite lookup_replicate_2 by lia. done.
        -- rewrite lookup_app_r by (rewrite length_replicate; lia).
           rewrite length_replicate. apply lookup_ge_None_2. simpl. lia.
Qed.




Section FillParts.

Variable fields : list value.
Hypothesis fields_length : length fields = 7%nat.





End FillParts.

(** *** From the fields to the offset *)



Lemma ndiv_minutes o :
  ndiv (num_of_Z (1000 * o)) (num_of_Z (60 * 1000)) = minutes_of_seconds o.
Proof.
  unfold ndiv, num_of_Z, minutes_of_seconds. simpl. f_equal.
  apply Qred_complete. unfold Qeq. simpl. lia.
Qed.


(** ** The two resolvers agree *)

Section Agreement.

Variable O : Oracle.

Lemma calculatedOffset_eq zone ts s :
  calculatedOffset O zone ts s =
  match time_clip ts with
  | None => (Ok NaN, s)
  | Some date =>
      match makeCalculatedOffsetDTF O zone s with
      | (Throw e, s1) => (Throw e, s1)
      | (Ok None, s1) => (Throw TypeError, s1)
      | (Ok (Some (Inherited b)), s1) => (Throw TypeError, s1)
      | (Ok (Some (Own d)), s1) =>
          if has_formatToParts O then
            (Ok (offset_of_fields
                   (fill_parts
                      (format_parts O (dtf_options d) (dtf_zone d) date) [])
                   date),
             log [FormatToParts d] s1)
          else
            match hackyOffset O (Some (Own d)) date s1 with
            | (Ok fields, s2) => (Ok (offset_of_fields fields date), s2)
            | (Throw e, s2) => (Throw e, s2)
            end
      end
  end.
Proof.
  unfold calculatedOffset. destruct (time_clip ts) as [date|]; [|done].
  unfold bind at 1.
  destruct (makeCalculatedOffsetDTF O zone s) as [[[[d|b]|]|e] s1]; try done.
  destruct (has_formatToParts O); [done|].
  unfold bind. by destruct (hackyOffset O (Some (Own d)) date s1) as [[?|?] ?].
Qed.


Lemma calculated_lookup s z :
  cache_ok O s -> supports O WallFields z = true -> inherited_get z = None ->
  exists s1,
    makeCalculatedOffsetDTF O z s =
    (Ok (Some (Own {| dtf_options := WallFields; dtf_zone := z |})), s1).
Proof.
  intros Hs Hz Hi. rewrite makeCalculatedOffsetDTF_eq. unfold obj_get.
  destruct (calculatedOffsetDTFCache s !! z) as [d|] eqn:E; simpl.
  - apply (calculated_ok O s Hs) in E as (_ & _ & ->). eauto.
  - rewrite Hi, Hz. simpl. eauto.
Qed.




End Agreement.



(** ** The Direct resolver's formula *)


Section DirectFormula.

Variable O : Oracle.


End DirectFormula.



(** ** The granularity of an offset *)



Section Granularity.

Variable O : Oracle.


End Granularity.



(** ** Zones with an invalid name *)

Section InvalidZone.

Variable O : Oracle.




End InvalidZone.



(** ** Hour 24 *)

(** C8 fails on the fallback path.  An engine without [formatToParts]
    prints midnight of 1 January 2020 in [Etc/GMT] as
    [01/01/2020 AD, 24:00:00]; [hackyOffset] returns the captures as strings,
    the string [24] is not [=== 24], so the hour is handed on as it is and
    the zone at offset 0 comes out 1440 minutes ahead.  With [formatToParts]
    the hour is parsed to the number 24 and normalized. *)
Lemma hacky_hour_24_not_normalized :
  format_text legacy WallFields (js "Etc/GMT") 1577836800000 =
  js "01/01/2020 AD, 24:00:00" /\
  fst (hackyOffset legacy
         (Some (Own {| dtf_options := WallFields; dtf_zone := js "Etc/GMT" |}))
         1577836800000 initial) =
  Ok (map VString
        (map js ["2020"; "01"; "01"; "AD"; "24"; "00"; "00"]%string)) /\
  adjustedHour (VString (js "24")) = VString (js "24") /\
  fst (calculatedOffset legacy (js "Etc/GMT") (Num 1577836800000) initial) =
  Ok (Num 1440) /\
  adjustedHour (VNumber (parseInt (js "24"))) = VNumber (Num 0) /\
  fst (calculatedOffset modern (js "Etc/GMT") (Num 1577836800000) initial) =
  Ok (Num 0).
Proof. repeat split; vm_compute; reflexivity. Qed.

(** ** The caches over a run, the zone objects and the texts read *)

#[local] Instance entries_kept_preorder {A} (cache : state -> gmap (list Z) A) :
  PreOrder (entries_kept cache).
Proof.
  split; [intros s k v H; exact H|].
  intros s1 s2 s3 H1 H2 k v H. by apply H2, H1.
Qed.

Lemma entries_kept_same {A} (cache : state -> gmap (list Z) A) s s' :
  cache s' = cache s -> entries_kept cache s s'.
Proof. intros E k v. by rewrite E. Qed.

Lemma obj_get_set_other {A} (o : gmap (list Z) A) key x k v :
  obj_get o key = None -> obj_get o k = Some v ->
  obj_get (obj_set o key x) k = Some v.
Proof.
  intros Hkey Hk. assert (k <> key) as Hne by (intros ->; congruence).
  unfold obj_get, obj_set in *. by rewrite lookup_insert_ne.
Qed.

Section FormatterCacheGrows.

Variable O : Oracle.

Lemma direct_entries_makeDirect zone :
  stable (entries_kept directOffsetDTFCache) (makeDirectOffsetDTF O zone).
Proof.
  intros s k v Hk. rewrite makeDirectOffsetDTF_eq.
  destruct (obj_get (directOffsetDTFCache s) zone) eqn:E; [done|].
  destruct (supports O LongOffset zone); simpl; [|done].
  by apply obj_get_set_other.
Qed.

Lemma calculated_entries_makeCalculated zone :
  stable (entries_kept calculatedOffsetDTFCache)
    (makeCalculatedOffsetDTF O zone).
Proof.
  intros s k v Hk. rewrite makeCalculatedOffsetDTF_eq.
  destruct (obj_get (calculatedOffsetDTFCache s) zone) eqn:E; [done|].
  destruct (supports O WallFields zone); simpl; [|done].
  by apply obj_get_set_other.
Qed.

Lemma direct_entries_step c s :
  c <> CallResetCache ->
  entries_kept directOffsetDTFCache s (step O c s).
Proof.
  intros Hc.
  assert (forall e s, e <> Now ->
            entries_kept directOffsetDTFCache s (log [e] s)) as Hlog
    by (intros; by apply entries_kept_same).
  assert (forall zone, stable (entries_kept directOffsetDTFCache)
                         (makeCalculatedOffsetDTF O zone)) as Hcalc.
  { intros zone. apply stable_makeCalculatedOffsetDTF_plain; [apply _|done|].
    intros; by apply entries_kept_same. }
  destruct c as [name|name| |z|z|name ts]; simpl.
  - apply entries_kept_same. rewrite create_eq. by destruct (obj_get _ _).
  - apply entries_kept_same. by rewrite new_IANAZone_eq.
  - done.
  - apply entries_kept_same. by rewrite isValidZone_eq.
  - apply entries_kept_same. unfold isValidSpecifier. by rewrite isValidZone_eq.
  - apply (stable_offset O (entries_kept directOffsetDTFCache));
      auto using direct_entries_makeDirect; try apply _;
      intros; by apply entries_kept_same.
Qed.

Lemma calculated_entries_step c s :
  c <> CallResetCache ->
  entries_kept calculatedOffsetDTFCache s (step O c s).
Proof.
  intros Hc.
  assert (forall e s, e <> Now ->
            entries_kept calculatedOffsetDTFCache s (log [e] s)) as Hlog
    by (intros; by apply entries_kept_same).
  assert (forall zone, stable (entries_kept calculatedOffsetDTFCache)
                         (makeDirectOffsetDTF O zone)) as Hdir.
  { intros zone. apply stable_makeDirectOffsetDTF_plain; [apply _|done|].
    intros; by apply entries_kept_same. }
  destruct c as [name|name| |z|z|name ts]; simpl.
  - apply entries_kept_same. rewrite create_eq. by destruct (obj_get _ _).
  - apply entries_kept_same. by rewrite new_IANAZone_eq.
  - done.
  - apply entries_kept_same. by rewrite isValidZone_eq.
  - apply entries_kept_same. unfold isValidSpecifier. by rewrite isValidZone_eq.
  - apply (stable_offset O (entries_kept calculatedOffsetDTFCache));
      auto using calculated_entries_makeCalculated; try apply _;
      intros; by apply entries_kept_same.
Qed.

Lemma entries_run {A} (cache : state -> gmap (list Z) A) cs :
  (forall c s, c <> CallResetCache -> entries_kept cache s (step O c s)) ->
  forall s, CallResetCache ∉ cs -> entries_kept cache s (run O cs s).
Proof.
  intros Hstep. induction cs as [|c cs IH]; intros s Hcs; simpl; [done|].
  apply not_elem_of_cons in Hcs as [Hc Hcs].
  etransitivity; [by apply Hstep | by apply IH].
Qed.

(** X1.  Once a formatter for a zone has been made, for either resolver,
    it is the formatter every later request for that zone gets, whatever is
    called in between short of [resetCache]: the request leaves the state as
    it is, so the oracle's constructor is not called a second time. *)
Theorem formatter_made_once (z : list Z) (s s1 : state)
    (v : option (member DTF)) (cs : list call) :
  CallResetCache ∉ cs ->
  (makeDirectOffsetDTF O z s = (Ok v, s1) ->
   makeDirectOffsetDTF O z (run O cs s1) = (Ok v, run O cs s1)) /\
  (makeCalculatedOffsetDTF O z s = (Ok v, s1) ->
   makeCalculatedOffsetDTF O z (run O cs s1) = (Ok v, run O cs s1)) /\
  (forall d ts,
     makeDirectOffsetDTF O z s = (Ok (Some (Own d)), s1) ->
     new_events (run O cs s1) (snd (directOffset O z ts (run O cs s1))) =
     [Format d]).
Proof.
  intros Hcs.
  assert (forall w, makeDirectOffsetDTF O z s = (Ok w, s1) ->
            makeDirectOffsetDTF O z (run O cs s1) = (Ok w, run O cs s1))
    as Hdirect; [|split; [apply Hdirect|split]].
  - clear v. intros v. rewrite makeDirectOffsetDTF_eq. intros H.
    assert (exists w, v = Some w /\ obj_get (directOffsetDTFCache s1) z = Some w)
      as (w & -> & Hw).
    { destruct (obj_get (directOffsetDTFCache s) z) as [w|] eqn:E.
      - injection H as <- <-. eauto.
      - simpl in H. destruct (supports O LongOffset z); [|done].
        injection H as <- <-. eexists. split; [done|]. apply obj_get_set. }
    rewrite makeDirectOffsetDTF_eq.
    by rewrite (entries_run directOffsetDTFCache cs direct_entries_step
                  s1 Hcs z w Hw).
  - rewrite makeCalculatedOffsetDTF_eq. intros H.
    assert (exists w, v = Some w /\
                      obj_get (calculatedOffsetDTFCache s1) z = Some w)
      as (w & -> & Hw).
    { destruct (obj_get (calculatedOffsetDTFCache s) z) as [w|] eqn:E.
      - injection H as <- <-. eauto.
      - simpl in H. destruct (supports O WallFields z); [|done].
        injection H as <- <-. eexists. split; [done|]. apply obj_get_set. }
    rewrite makeCalculatedOffsetDTF_eq.
    by rewrite (entries_run calculatedOffsetDTFCache cs calculated_entries_step
                  s1 Hcs z w Hw).
  - intros d ts H. rewrite directOffset_eq, (Hdirect _ H).
    by apply new_events_app.
Qed.

End FormatterCacheGrows.

Lemma formatter_made_once_witness :
  let cs := [CallOffset (js "Etc/GMT") (Num 0); CallCreate (js "x")] in
  let s1 := snd (makeDirectOffsetDTF modern (js "Asia/Kolkata") initial) in
  let s2 := snd (makeCalculatedOffsetDTF modern (js "Asia/Kolkata") initial) in
  fst (makeDirectOffsetDTF modern (js "Asia/Kolkata") (run modern cs s1)) =
  Ok (Some (Own {| dtf_options := LongOffset; dtf_zone := js "Asia/Kolkata" |}))
  /\
  fst (makeCalculatedOffsetDTF modern (js "Asia/Kolkata") (run modern cs s2)) =
  Ok (Some (Own {| dtf_options := WallFields; dtf_zone := js "Asia/Kolkata" |}))
  /\
  new_events (run modern cs s1)
    (snd (directOffset modern (js "Asia/Kolkata") (Num 5) (run modern cs s1)))
  = [Format {| dtf_options := LongOffset; dtf_zone := js "Asia/Kolkata" |}].
Proof.
  intros cs s1 s2.
  assert (CallResetCache ∉ cs) as H.
  { intros H. apply elem_of_cons in H as [H|H]; [discriminate|].
    apply elem_of_cons in H as [H|H]; [discriminate|].
    by apply elem_of_nil in H. }
  destruct (formatter_made_once modern (js "Asia/Kolkata") initial s1
              (Some (Own {| dtf_options := LongOffset;
                            dtf_zone := js "Asia/Kolkata" |})) cs H)
    as (H1 & _ & H3).
  destruct (formatter_made_once modern (js "Asia/Kolkata") initial s2
              (Some (Own {| dtf_options := WallFields;
                            dtf_zone := js "Asia/Kolkata" |})) cs H)
    as (_ & H2 & _).
  assert (makeDirectOffsetDTF modern (js "Asia/Kolkata") initial =
          (Ok (Some (Own {| dtf_options := LongOffset;
                            dtf_zone := js "Asia/Kolkata" |})), s1)) as E1
    by (vm_compute; reflexivity).
  assert (makeCalculatedOffsetDTF modern (js "Asia/Kolkata") initial =
          (Ok (Some (Own {| dtf_options := WallFields;
                            dtf_zone := js "Asia/Kolkata" |})), s2)) as E2
    by (vm_compute; reflexivity).
  split; [|split].
  - by rewrite (H1 E1).
  - by rewrite (H2 E2).
  - exact (H3 _ (Num 5) E1).
Defined.

Section InvalidInstant.

Variable O : Oracle.

(** X2.  An instant that is no valid time value ([NaN], or beyond the range
    of dates) makes [offset] return [NaN] under either strategy, for every
    zone the oracle builds the Direct formatter for.  The Calculated
    resolver returns before it touches anything: no formatter is made or
    cached and the oracle is not called.  The Direct resolver has no such
    test: it returns [NaN] because [format] raised. *)
Theorem invalid_instant_NaN (z : list Z) (ts : number) (s : state)
    (f : resolver) :
  time_clip ts = None ->
  calculatedOffset O z ts s = (Ok NaN, s) /\
  (cache_ok O s -> supports O LongOffset z = true ->
   fst (directOffset O z ts s) = Ok NaN /\
   (offsetFunc s = Some f -> fst (offset O z ts s) = Ok NaN)).
Proof.
  intros Ht. split; [by rewrite calculatedOffset_eq, Ht|].
  intros Hs Hz.
  assert (fst (directOffset O z ts s) = Ok NaN) as Hd.
  { rewrite directOffset_eq, makeDirectOffsetDTF_eq. unfold obj_get.
    destruct (directOffsetDTFCache s !! z) as [d|]; simpl;
      [by rewrite Ht|].
    destruct (inherited_get z); simpl; [done|].
    rewrite Hz. simpl. by rewrite Ht. }
  split; [done|]. intros Hf. rewrite (offset_resolved O z ts s f Hf).
  destruct f; simpl; [done|]. by rewrite calculatedOffset_eq, Ht.
Qed.

End InvalidInstant.

Lemma invalid_instant_NaN_witness :
  fst (offset modern (js "Asia/Kolkata") NaN
         (run modern [CallOffset (js "Etc/GMT") (Num 0)] initial)) = Ok NaN.
Proof.
  destruct (invalid_instant_NaN modern (js "Asia/Kolkata") NaN
              (run modern [CallOffset (js "Etc/GMT") (Num 0)] initial)
              directOffsetFn eq_refl) as (_ & H).
  apply H; [apply cache_ok_reachable | reflexivity | vm_compute; reflexivity].
Defined.

Section Heap.

Variable O : Oracle.

Lemma heap_step c s : heap s `prefix_of` heap (step O c s).
Proof.
  assert (forall zone, stable (keeps heap) (makeDirectOffsetDTF O zone))
    as Hd by (intros; apply stable_makeDirectOffsetDTF_plain; kept).
  assert (forall zone, stable (keeps heap) (makeCalculatedOffsetDTF O zone))
    as Hc by (intros; apply stable_makeCalculatedOffsetDTF_plain; kept).
  destruct c as [name|name| |z|z|name ts]; simpl.
  - rewrite create_eq. destruct (obj_get _ _); simpl; [done|].
    by apply prefix_app_r.
  - rewrite new_IANAZone_eq. simpl. by apply prefix_app_r.
  - done.
  - by rewrite isValidZone_eq.
  - unfold isValidSpecifier. by rewrite isValidZone_eq.
  - assert (heap (snd (offset O name ts s)) = heap s) as ->; [|done].
    apply (stable_offset O (keeps heap)); kept.
Qed.

Lemma heap_run cs : forall s, heap s `prefix_of` heap (run O cs s).
Proof.
  induction cs as [|c cs IH]; intros s; simpl; [done|].
  etransitivity; [apply heap_step | apply IH].
Qed.

Lemma heap_lookup_run cs s r z :
  heap s !! r = Some z -> heap (run O cs s) !! r = Some z.
Proof. intros H. by eapply prefix_lookup_Some, heap_run. Qed.

(** X3.  A zone object is never changed and never dropped: whatever is
    called after its construction, [resetCache] included, a reference to it
    still finds the same name and the same validity flag, and no reference
    that was free before is handed out twice. *)
Theorem zone_objects_persist (cs : list call) (s : state) (r : nat)
    (z : IANAZone) :
  (length (heap s) <= length (heap (run O cs s)))%nat /\
  (heap s !! r = Some z -> heap (run O cs s) !! r = Some z).
Proof.
  split; [apply prefix_length, heap_run | apply heap_lookup_run].
Qed.

Lemma heap_ok_step c s : heap_ok O s -> heap_ok O (step O c s).
Proof.
  intros Hs. pose proof (heap_step c s) as Hpre.
  destruct c as [name|name| |z|z|name ts].
  - simpl in *. rewrite create_eq in *.
    destruct (obj_get (ianaZoneCache s) name) eqn:E; simpl in *; [done|].
    intros k r. simpl. unfold obj_set. rewrite lookup_insert.
    case_decide as Hk.
    + intros [= <-]. subst k. by rewrite lookup_app_r, Nat.sub_diag.
    + intros H. apply lookup_app_l_Some. by apply Hs.
  - intros k r H. rewrite keeps_ianaZoneCache_step in H by done.
    eapply prefix_lookup_Some; [by apply Hs | done].
  - intros k r. simpl. by rewrite lookup_empty.
  - intros k r H. rewrite keeps_ianaZoneCache_step in H by done.
    eapply prefix_lookup_Some; [by apply Hs | done].
  - intros k r H. rewrite keeps_ianaZoneCache_step in H by done.
    eapply prefix_lookup_Some; [by apply Hs | done].
  - intros k r H. rewrite keeps_ianaZoneCache_step in H by done.
    eapply prefix_lookup_Some; [by apply Hs | done].
Qed.

Lemma heap_ok_reachable cs : heap_ok O (run O cs initial).
Proof.
  assert (forall s, heap_ok O s -> heap_ok O (run O cs s)) as H.
  { induction cs as [|c cs IH]; intros s Hs; simpl; [done|].
    by apply IH, heap_ok_step. }
  apply H. intros k r. simpl. by rewrite lookup_empty.
Qed.

Lemma create_named cs name r :
  fst (create O name (run O cs initial)) = Ok (Some (Own r)) ->
  heap (snd (create O name (run O cs initial))) !! r =
  Some {| zoneName := name; valid := valid_name O name |}.
Proof.
  intros H.
  pose proof (heap_ok_step (CallCreate name) _ (heap_ok_reachable cs)) as Hok.
  simpl in Hok. apply Hok.
  destruct (create_returns_entry O name (run O cs initial)) as (v & Hv & Hget).
  rewrite H in Hv. injection Hv as <-. by apply obj_get_own.
Qed.

(** X4.  Whatever has been called before, [create] does not throw, and
    when it returns a zone it is a zone of the name asked for whose validity
    flag is the validator's answer for that name. *)
Theorem create_returns_named_zone (cs : list call) (name : list Z) (r : nat) :
  (exists v, fst (create O name (run O cs initial)) = Ok (Some v)) /\
  (fst (create O name (run O cs initial)) = Ok (Some (Own r)) ->
   heap (snd (create O name (run O cs initial))) !! r =
   Some {| zoneName := name; valid := valid_name O name |}).
Proof.
  split; [|apply create_named].
  destruct (create_returns_entry O name (run O cs initial)) as (v & Hv & _).
  eauto.
Qed.

Lemma equals_name a b :
  equals a (as_zone b) = bool_decide (zoneName b = zoneName a).
Proof. unfold equals. simpl. change (bool_decide (js "iana" = js "iana")) with true. done. Qed.

(** X5.  [equals] compares names and nothing else.  Between two
    [IANAZone]s it holds exactly when the names are the same, validity and
    identity play no role; it fails for a zone of any other type.  So the
    zone [create] returns after a [resetCache] is a new object that equals
    the one returned before. *)
Theorem equals_by_name (a b : IANAZone) (other : Zone) (cs : list call)
    (name : list Z) (r1 r2 : nat) (z1 z2 : IANAZone) :
  (equals a (as_zone b) = true <-> zoneName a = zoneName b) /\
  (zone_type other <> VString (js "iana") -> equals a other = false) /\
  (let s1 := snd (create O name (run O cs initial)) in
   let s2 := snd (create O name (snd (resetCache s1))) in
   fst (create O name (run O cs initial)) = Ok (Some (Own r1)) ->
   fst (create O name (snd (resetCache s1))) = Ok (Some (Own r2)) ->
   heap s2 !! r1 = Some z1 -> heap s2 !! r2 = Some z2 ->
   r1 <> r2 /\ equals z1 (as_zone z2) = true).
Proof.
  split; [|split].
  - rewrite equals_name, bool_decide_eq_true.
    split; intros H; symmetry; exact H.
  - intros H. unfold equals.
    destruct (zone_type other) as [|n|t]; simpl; try done.
    rewrite bool_decide_eq_false_2; [done|].
    intros E. apply H. f_equal. exact E.
  - intros s1 s2 H1 H2 Hz1 Hz2.
    pose proof (create_named cs name r1 H1) as Hn1.
    fold s1 in Hn1.
    assert (heap s2 !! r1 =
            Some {| zoneName := name; valid := valid_name O name |}) as Hn1'.
    { apply (heap_lookup_run [CallResetCache; CallCreate name] s1 r1 _ Hn1). }
    rewrite Hn1' in Hz1. injection Hz1 as <-.
    subst s2. rewrite resetCache_eq in *. simpl in *.
    rewrite create_eq in *. simpl in *. unfold obj_get in *.
    rewrite lookup_empty in *.
    destruct (inherited_get name); simpl in *; [done|].
    injection H2 as <-.
    rewrite lookup_app_r, Nat.sub_diag in Hz2 by done. injection Hz2 as <-.
    split; [|by rewrite equals_name, bool_decide_eq_true].
    apply lookup_lt_Some in Hn1. lia.
Qed.

End Heap.

Lemma zone_objects_persist_witness :
  heap (run modern [CallResetCache; CallCreate (js "Etc/GMT")]
          (snd (create modern (js "Etc/GMT") initial))) !! 0%nat =
  Some {| zoneName := js "Etc/GMT"; valid := true |}.
Proof.
  destruct (zone_objects_persist modern
              [CallResetCache; CallCreate (js "Etc/GMT")]
              (snd (create modern (js "Etc/GMT") initial)) 0
              {| zoneName := js "Etc/GMT"; valid := true |}) as (_ & H).
  apply H. vm_compute. reflexivity.
Defined.

Lemma create_returns_named_zone_witness :
  heap (snd (create modern (js "Fantasia/Castle") (run modern [] initial)))
    !! 0%nat =
  Some {| zoneName := js "Fantasia/Castle";
          valid := valid_name modern (js "Fantasia/Castle") |}.
Proof.
  destruct (create_returns_named_zone modern [] (js "Fantasia/Castle") 0)
    as (_ & H).
  apply H. vm_compute. reflexivity.
Defined.

Lemma equals_by_name_witness :
  equals {| zoneName := js "Etc/GMT"; valid := true |}
    {| zone_type := VString (js "fixed"); zone_name := VString (js "Etc/GMT") |}
  = false /\
  (0 <> 1)%nat /\
  equals {| zoneName := js "Etc/GMT"; valid := true |}
    (as_zone {| zoneName := js "Etc/GMT"; valid := true |}) = true.
Proof.
  destruct (equals_by_name modern
              {| zoneName := js "Etc/GMT"; valid := true |}
              {| zoneName := js "Etc/GMT"; valid := true |}
              {| zone_type := VString (js "fixed");
                 zone_name := VString (js "Etc/GMT") |}
              [] (js "Etc/GMT") 0 1
              {| zoneName := js "Etc/GMT"; valid := true |}
              {| zoneName := js "Etc/GMT"; valid := true |})
    as (_ & H2 & H3).
  split.
  - apply H2. intros H. vm_compute in H. discriminate.
  - apply H3; vm_compute; reflexivity.
Defined.

Lemma rmatch_offset_starts s :
  is_Some (rmatch re_offset s [] accept) <-> starts_GMT s = true.
Proof.
  split.
  - intros [caps H]. revert H. unfold re_offset.
    change (js "GMT") with [71; 77; 84]. simpl.
    destruct s as [|a [|b [|c s]]]; simpl; try done.
    + by destruct (a =? 71).
    + destruct (a =? 71); [|done]. by destruct (b =? 77).
    + destruct (a =? 71); [|done]. destruct (b =? 77); [|done].
      by destruct (c =? 84).
  - intros H. destruct s as [|a [|b [|c s]]]; simpl in H; try done.
    apply andb_true_iff in H as [[Ha Hb]%andb_true_iff Hc].
    apply Z.eqb_eq in Ha, Hb, Hc. subst. apply rmatch_offset_here.
Qed.

Lemma match_from_first_GMT s : forall i,
  fst <$> match_from re_offset s i = first_GMT s i.
Proof.
  induction s as [|x s IH]; intros i.
  - simpl. done.
  - cbn [match_from first_GMT]. fold accept.
    destruct (starts_GMT (x :: s)) eqn:E.
    + apply rmatch_offset_starts in E as [caps ->]. done.
    + destruct (rmatch re_offset (x :: s) [] accept) as [caps|] eqn:E'.
      * assert (starts_GMT (x :: s) = true) by (apply rmatch_offset_starts; eauto).
        congruence.
      * apply IH.
Qed.

(** X6.  Searching a text with the offset expression is searching it for
    its first [GMT]: the optional sign-and-digits group never decides where
    the match starts, and the result is [-1] exactly when the text has no
    [GMT] at all. *)
Theorem search_offset_is_first_GMT (s : list Z) :
  search re_offset s =
  match first_GMT s 0 with
  | Some i => Z.of_nat i
  | None => -1
  end.
Proof.
  unfold search. rewrite <- (match_from_first_GMT s 0).
  by destruct (match_from re_offset s 0) as [[i caps]|].
Qed.

(** X7.  The Direct resolver reads fixed positions after the [GMT] it
    found: the character right after it only through its code, two
    characters for the hours, two for the minutes and two for the seconds.
    It does not look at the characters between them, and whatever stands
    where the sign is expected is turned into the factor [44 - code]. *)
Theorem direct_reads_fixed_positions (pre : list Z) (c a b h m sec : Z)
    (rest : list Z) :
  Forall (fun x => x <> 71) pre ->
  0 <= h < 100 -> 0 <= m < 100 -> 0 <= sec < 100 ->
  offset_of_text
    (pre ++ js "GMT" ++ c :: two_digits h ++ a :: two_digits m ++
     b :: two_digits sec ++ rest) =
  minutes_of_seconds ((44 - c) * (h * 3600 + m * 60 + sec)).
Proof.
  intros Hpre Hh Hm Hs. change (js "GMT") with [71; 77; 84].
  unfold offset_of_text. cbn [app].
  rewrite (search_offset pre _ Hpre).
  rewrite charCodeAt_app by lia.
  rewrite !slice_app by lia.
  change (Z.to_nat 3) with 3%nat. change (Z.to_nat (6 - 4)) with 2%nat.
  change (Z.to_nat (9 - 7)) with 2%nat. change (Z.to_nat (12 - 10)) with 2%nat.
  change (Z.to_nat 4) with 4%nat. change (Z.to_nat 7) with 7%nat.
  change (Z.to_nat 10) with 10%nat.
  rewrite !two_digits_app.
  cbn [lookup list_lookup skipn isNaN num_of_Z].
  rewrite !take_two_digits, !two_digits_number by done.
  apply (direct_arithmetic c h m sec).
Qed.

Lemma direct_reads_fixed_positions_witness :
  offset_of_text (js "GMT 01h30m15s") = Num 1083.
Proof.
  change (js "GMT 01h30m15s") with
    ([] ++ js "GMT" ++ 32 :: two_digits 1 ++ 104 :: two_digits 30 ++
     109 :: two_digits 15 ++ js "s").
  rewrite (direct_reads_fixed_positions [] 32 104 109 1 30 15 (js "s"));
    [vm_compute; reflexivity | constructor | lia | lia | lia].
Defined.

Lemma more_run p k ds rest r :
  ds <> [] -> Forall (fun x => p x = true) ds ->
  match rest with [] => True | x :: _ => p x = false end ->
  k rest = Some r ->
  more p k (ds ++ rest) = Some r.
Proof.
  intros Hne Hds Hrest Hk. induction Hds as [|d ds Hd Hds IH]; [done|].
  cbn [app more]. rewrite Hd. destruct ds as [|d' ds'].
  - cbn [app]. destruct rest as [|x rest]; cbn [more]; [done|].
    by rewrite Hrest.
  - by rewrite IH.
Qed.

Lemma rmatch_Plus p s caps k :
  rmatch (Plus p) s caps k = more p (fun t => k t caps) s.
Proof. done. Qed.

Lemma take_prefix {A} (a b : list A) :
  take (length (a ++ b) - length b) (a ++ b) = a.
Proof.
  rewrite length_app, Nat.add_sub. by rewrite take_app_length.
Qed.

Lemma rmatch_digits ds rest caps k r :
  digits ds -> stops rest ->
  k rest (caps ++ [ds]) = Some r ->
  rmatch (Group (Plus is_digit)) (ds ++ rest) caps k = Some r.
Proof.
  intros [Hne Hds] Hrest Hk. cbn [rmatch]. fold (rmatch (Plus is_digit)).
  change (more is_digit
            (fun t => k t (caps ++ [take (length (ds ++ rest) - length t)
                                      (ds ++ rest)]))
            (ds ++ rest) = Some r).
  apply more_run; try done. by rewrite take_prefix.
Qed.

Lemma rmatch_Cat r1 r2 s caps k :
  rmatch (r1 +++ r2) s caps k =
  rmatch r1 s caps (fun s' caps' => rmatch r2 s' caps' k).
Proof. done. Qed.

Lemma rmatch_Chr c s caps k : rmatch (Chr c) (c :: s) caps k = k s caps.
Proof. cbn [rmatch]. by rewrite Z.eqb_refl. Qed.

Lemma rmatch_Group r1 s caps k :
  rmatch (Group r1) s caps k =
  rmatch r1 s caps
    (fun s' caps' => k s' (caps' ++ [take (length s - length s')%nat s])).
Proof. done. Qed.

Lemma rmatch_era y rest caps k r :
  k rest (caps ++ [era_of y]) = Some r ->
  rmatch (Group (Alt (lit (js "AD")) (lit (js "BC")))) (era_of y ++ rest)
    caps k = Some r.
Proof.
  intros Hk. rewrite rmatch_Group.
  set (k' := fun (s' : list Z) (caps' : list (list Z)) => _).
  assert (k' rest caps = Some r) as Hk'.
  { subst k'. cbv beta. by rewrite take_prefix. }
  clearbody k'. unfold era_of.
  change (js "AD") with [65; 68]. change (js "BC") with [66; 67].
  destruct (0 <? y); cbn [rmatch lit app].
  - rewrite !Z.eqb_refl. by rewrite Hk'.
  - change (66 =? 65) with false. cbv iota. rewrite !Z.eqb_refl. exact Hk'.
Qed.

Lemma rmatch_comma comma rest caps k r :
  rmatch (Chr 32) (32 :: rest) caps k = Some r ->
  rmatch (Opt (Chr 44) +++ Chr 32) (comma_text comma ++ 32 :: rest) caps k
  = Some r.
Proof.
  intros Hk. destruct comma; cbn [comma_text app].
  - rewrite rmatch_Cat. cbn [rmatch]. rewrite Z.eqb_refl.
    cbn [rmatch] in Hk. by rewrite Hk.
  - rewrite rmatch_Cat. cbn [rmatch]. change (32 =? 44) with false. cbv iota.
    cbn [rmatch] in Hk. exact Hk.
Qed.

Lemma Cat_assoc_match r1 r2 r3 s caps k :
  rmatch (r1 +++ r2 +++ r3) s caps k = rmatch ((r1 +++ r2) +++ r3) s caps k.
Proof. done. Qed.

Lemma rmatch_re_wall mon day yr y comma hr mn sc post k r :
  digits mon -> digits day -> digits yr -> digits hr -> digits mn ->
  digits sc -> stops post ->
  k post [mon; day; yr; era_of y; hr; mn; sc] = Some r ->
  rmatch re_wall
    (mon ++ 47 :: day ++ 47 :: yr ++ 32 :: era_of y ++ comma_text comma ++
     32 :: hr ++ 58 :: mn ++ 58 :: sc ++ post) [] k = Some r.
Proof.
  intros Hmon Hday Hyr Hhr Hmn Hsc Hpost Hk.
  unfold re_wall.
  rewrite rmatch_Cat. apply rmatch_digits; [done | done |].
  rewrite rmatch_Cat, rmatch_Chr.
  rewrite rmatch_Cat. apply rmatch_digits; [done | done |].
  rewrite rmatch_Cat, rmatch_Chr.
  rewrite rmatch_Cat. apply rmatch_digits; [done | done |].
  rewrite rmatch_Cat, rmatch_Chr.
  rewrite rmatch_Cat. apply rmatch_era.
  rewrite Cat_assoc_match, rmatch_Cat. apply rmatch_comma. rewrite rmatch_Chr.
  rewrite rmatch_Cat. apply rmatch_digits; [done | done |].
  rewrite rmatch_Cat, rmatch_Chr.
  rewrite rmatch_Cat. apply rmatch_digits; [done | done |].
  rewrite rmatch_Cat, rmatch_Chr.
  apply rmatch_digits; [done | done |]. exact Hk.
Qed.

Lemma rmatch_re_wall_miss x s k :
  is_digit x = false -> rmatch re_wall (x :: s) [] k = None.
Proof. intros H. unfold re_wall. rewrite rmatch_Cat. cbn [rmatch]. by rewrite H. Qed.

Lemma rmatch_re_wall_nil k : rmatch re_wall [] [] k = None.
Proof. done. Qed.

Lemma match_from_re_wall_miss s i :
  Forall (fun x => is_digit x = false) s -> match_from re_wall s i = None.
Proof.
  intros H. revert i. induction H as [|x s Hx Hs IH]; intros i.
  - done.
  - cbn [match_from]. rewrite rmatch_re_wall_miss by done. apply IH.
Qed.

Lemma exec_re_wall pre mon day yr y comma hr mn sc post :
  Forall (fun x => is_digit x = false) pre ->
  digits mon -> digits day -> digits yr -> digits hr -> digits mn ->
  digits sc -> stops post ->
  exec re_wall
    (pre ++ wall_text mon day yr (era_of y) comma hr mn sc post) =
  Some [mon; day; yr; era_of y; hr; mn; sc].
Proof.
  intros Hpre Hmon Hday Hyr Hhr Hmn Hsc Hpost. unfold exec, wall_text.
  generalize 0%nat. induction Hpre as [|x pre Hx Hpre IH]; intros i.
  - cbn [app]. destruct (mon ++ _) eqn:E.
    + cbn [match_from]. rewrite <- E.
      by erewrite rmatch_re_wall.
    + cbn [match_from]. rewrite <- E. by erewrite rmatch_re_wall.
  - cbn [app match_from]. rewrite rmatch_re_wall_miss by done. apply IH.
Qed.

(** ** Numerals *)

Lemma is_digit_cases d :
  is_digit d = true ->
  d = 48 \/ d = 49 \/ d = 50 \/ d = 51 \/ d = 52 \/ d = 53 \/ d = 54 \/
  d = 55 \/ d = 56 \/ d = 57.
Proof.
  unfold is_digit. intros H. apply andb_true_iff in H as [H1 H2].
  apply Z.leb_le in H1, H2. lia.
Qed.

Ltac digit_cases H :=
  apply is_digit_cases in H;
  repeat (destruct H as [->|H]); [..|subst].

Lemma digit_not_space d : is_digit d = true -> is_space d = false.
Proof. intros H. digit_cases H; reflexivity. Qed.

Lemma split_sign_digit d s :
  is_digit d = true -> split_sign (d :: s) = (1, d :: s).
Proof. intros H. digit_cases H; reflexivity. Qed.

Lemma trim_start_digit d s :
  is_digit d = true -> trim_start (d :: s) = d :: s.
Proof. intros H. cbn [trim_start]. by rewrite digit_not_space. Qed.

Lemma span_digits_all ds :
  Forall (fun x => is_digit x = true) ds -> span_digits ds = (ds, []).
Proof.
  induction 1 as [|d ds Hd Hds IH]; [done|].
  cbn [span_digits]. by rewrite Hd, IH.
Qed.

Lemma trim_digits ds :
  Forall (fun x => is_digit x = true) ds -> trim ds = ds.
Proof.
  intros H. unfold trim. destruct ds as [|d ds]; [done|].
  inversion H as [|? ? Hd Hds]; subst.
  rewrite trim_start_digit by done.
  destruct (rev (d :: ds)) as [|x r] eqn:E.
  - apply (f_equal length) in E. rewrite length_rev in E. done.
  - assert (is_digit x = true) as Hx.
    { assert (x ∈ rev (d :: ds)) as Hin by (rewrite E; left).
      apply list_elem_of_In, in_rev, list_elem_of_In in Hin. by eapply (proj1 (Forall_forall _ _) H). }
    rewrite trim_start_digit by done. by rewrite <- E, rev_involutive.
Qed.

Lemma StringToNumber_digits ds :
  digits ds -> StringToNumber ds = num_of_Z (digits_value 0 ds).
Proof.
  intros [Hne H]. unfold StringToNumber. rewrite trim_digits by done.
  destruct ds as [|d ds]; [done|].
  inversion H as [|? ? Hd Hds]; subst.
  rewrite split_sign_digit by done. rewrite span_digits_all by done.
  unfold num_of_Z. f_equal. rewrite Z.mul_1_l. apply Qred_inject_Z.
Qed.


(** ** What the matcher accepts, read backwards *)

Lemma more_inv p k t r :
  more p k t = Some r ->
  exists ds rest,
    t = ds ++ rest /\ ds <> [] /\ Forall (fun x => p x = true) ds /\
    k rest = Some r.
Proof.
  induction t as [|x t IH]; [done|]. cbn [more].
  destruct (p x) eqn:Hx; [|done].
  destruct (more p k t) as [c|] eqn:E.
  - intros [= ->]. destruct (IH eq_refl) as (ds & rest & -> & _ & Hds & Hk).
    exists (x :: ds), rest. repeat split; try done. by constructor.
  - intros Hk. exists [x], t. repeat split; try done. by repeat constructor.
Qed.

Lemma rmatch_digits_inv s caps k r :
  rmatch (Group (Plus is_digit)) s caps k = Some r ->
  exists ds rest,
    s = ds ++ rest /\ digits ds /\ k rest (caps ++ [ds]) = Some r.
Proof.
  intros H.
  change (more is_digit
            (fun t => k t (caps ++ [take (length s - length t) s])) s
          = Some r) in H.
  apply more_inv in H as (ds & rest & -> & Hne & Hds & Hk).
  rewrite take_prefix in Hk. by exists ds, rest.
Qed.

Lemma rmatch_Chr_inv c s caps k r :
  rmatch (Chr c) s caps k = Some r ->
  exists rest, s = c :: rest /\ k rest caps = Some r.
Proof.
  destruct s as [|x s]; [done|]. cbn [rmatch].
  destruct (Z.eqb_spec x c) as [->|]; [|done]. by exists s.
Qed.

Lemma rmatch_era_inv s caps k r :
  rmatch (Group (Alt (lit (js "AD")) (lit (js "BC")))) s caps k = Some r ->
  exists era rest,
    s = era ++ rest /\ (era = js "AD" \/ era = js "BC") /\
    k rest (caps ++ [era]) = Some r.
Proof.
  rewrite rmatch_Group.
  set (k' := fun (s' : list Z) (caps' : list (list Z)) => _).
  assert (forall era rest, s = era ++ rest ->
            k' rest caps = k rest (caps ++ [era])) as Hk'.
  { intros era rest ->. subst k'. cbv beta. by rewrite take_prefix. }
  clearbody k'.
  change (js "AD") with [65; 68]. change (js "BC") with [66; 67].
  cbn [rmatch lit].
  destruct s as [|a [|b s]].
  - done.
  - by destruct (a =? 65), (a =? 66).
  - destruct (Z.eqb_spec a 65) as [->|].
    + destruct (Z.eqb_spec b 68) as [->|].
      * destruct (k' s caps) as [c|] eqn:E.
        -- intros [= ->]. exists [65; 68], s. rewrite <- (Hk' [65; 68] s eq_refl).
           repeat split; try done. by left.
        -- done.
      * done.
    + destruct (Z.eqb_spec a 66) as [->|]; [|done].
      destruct (Z.eqb_spec b 67) as [->|]; [|done].
      intros E. exists [66; 67], s. rewrite <- (Hk' [66; 67] s eq_refl).
      repeat split; try done. by right.
Qed.

Lemma rmatch_comma_inv s caps k r :
  rmatch (Opt (Chr 44)) s caps k = Some r ->
  exists comma rest, s = comma_text comma ++ rest /\ k rest caps = Some r.
Proof.
  cbn [rmatch]. destruct s as [|x s].
  - intros H. by exists false, [].
  - destruct (Z.eqb_spec x 44) as [->|].
    + destruct (k s caps) as [c|] eqn:E.
      * intros [= ->]. by exists true, s.
      * intros H. by exists false, (44 :: s).
    + intros H. by exists false, (x :: s).
Qed.

Lemma rmatch_re_wall_inv s caps :
  rmatch re_wall s [] accept = Some caps ->
  exists mon day yr era comma hr mn sc post,
    s = wall_text mon day yr era comma hr mn sc post /\
    caps = [mon; day; yr; era; hr; mn; sc] /\
    digits mon /\ digits day /\ digits yr /\
    (era = js "AD" \/ era = js "BC") /\
    digits hr /\ digits mn /\ digits sc.
Proof.
  unfold re_wall. intros H.
  rewrite rmatch_Cat in H.
  apply rmatch_digits_inv in H as (mon & s1 & -> & Hmon & H).
  rewrite rmatch_Cat in H. apply rmatch_Chr_inv in H as (s2 & -> & H).
  rewrite rmatch_Cat in H.
  apply rmatch_digits_inv in H as (day & s3 & -> & Hday & H).
  rewrite rmatch_Cat in H. apply rmatch_Chr_inv in H as (s4 & -> & H).
  rewrite rmatch_Cat in H.
  apply rmatch_digits_inv in H as (yr & s5 & -> & Hyr & H).
  rewrite rmatch_Cat in H. apply rmatch_Chr_inv in H as (s6 & -> & H).
  rewrite rmatch_Cat in H.
  apply rmatch_era_inv in H as (era & s7 & -> & Hera & H).
  rewrite rmatch_Cat in H.
  apply rmatch_comma_inv in H as (comma & s8 & -> & H).
  rewrite rmatch_Cat in H. apply rmatch_Chr_inv in H as (s9 & -> & H).
  rewrite rmatch_Cat in H.
  apply rmatch_digits_inv in H as (hr & s10 & -> & Hhr & H).
  rewrite rmatch_Cat in H. apply rmatch_Chr_inv in H as (s11 & -> & H).
  rewrite rmatch_Cat in H.
  apply rmatch_digits_inv in H as (mn & s12 & -> & Hmn & H).
  rewrite rmatch_Cat in H. apply rmatch_Chr_inv in H as (s13 & -> & H).
  apply rmatch_digits_inv in H as (sc & post & -> & Hsc & H).
  injection H as <-.
  by exists mon, day, yr, era, comma, hr, mn, sc, post.
Qed.

Lemma match_from_inv r s i j caps :
  match_from r s i = Some (j, caps) ->
  exists pre rest, s = pre ++ rest /\ rmatch r rest [] accept = Some caps.
Proof.
  revert i. induction s as [|x s IH]; intros i; cbn [match_from].
  - destruct (rmatch r [] [] _) as [c|] eqn:E; [|done].
    intros [= _ ->]. by exists [], [].
  - destruct (rmatch r (x :: s) [] _) as [c|] eqn:E.
    + intros [= _ ->]. by exists [], (x :: s).
    + intros H. apply IH in H as (pre & rest & -> & H).
      by exists (x :: pre), rest.
Qed.

Lemma exec_re_wall_inv s caps :
  exec re_wall s = Some caps ->
  exists pre mon day yr era comma hr mn sc post,
    s = pre ++ wall_text mon day yr era comma hr mn sc post /\
    caps = [mon; day; yr; era; hr; mn; sc] /\
    digits mon /\ digits day /\ digits yr /\
    (era = js "AD" \/ era = js "BC") /\
    digits hr /\ digits mn /\ digits sc.
Proof.
  unfold exec. destruct (match_from re_wall s 0) as [[j c]|] eqn:E; [|done].
  intros [= ->]. apply match_from_inv in E as (pre & rest & -> & H).
  apply rmatch_re_wall_inv in H
    as (mon & day & yr & era & comma & hr & mn & sc & post & -> & H).
  by exists pre, mon, day, yr, era, comma, hr, mn, sc, post.
Qed.

Lemma time_clip_again ts t :
  time_clip ts = Some t -> time_clip (num_of_Z t) = Some t.
Proof.
  destruct ts as [|q]; [done|]. cbn [time_clip num_of_Z inject_Z Qnum Qden].
  rewrite Z.quot_1_r.
  destruct (Z.abs _ <=? _) eqn:E; [|done]. intros [= <-]. by rewrite E.
Qed.

Section TextPath.

Variable O : Oracle.

Lemma hackyOffset_eq d date s :
  time_clip (num_of_Z date) = Some date ->
  hackyOffset O (Some (Own d)) date s =
  match exec re_wall (strip_lrm (format_text O (dtf_options d) (dtf_zone d) date)) with
  | Some [fMonth; fDay; fYear; fadOrBc; fHour; fMinute; fSecond] =>
      (Ok (map VString [fYear; fMonth; fDay; fadOrBc; fHour; fMinute; fSecond]),
       log [Format d] s)
  | _ => (Throw TypeError, log [Format d] s)
  end.
Proof.
  intros Ht. unfold hackyOffset, dtf_format. rewrite Ht.
  unfold bind, emit, update, ret, throw. cbn.
  destruct (exec re_wall _) as [[|a [|b [|c [|e [|f [|g [|h [|]]]]]]]]|]; done.
Qed.


Lemma time_clip_of_Z date tv :
  time_clip (num_of_Z date) = Some tv -> tv = date.
Proof.
  cbn [time_clip num_of_Z inject_Z Qnum Qden]. rewrite Z.quot_1_r.
  destruct (Z.abs _ <=? _); [|done]. by intros [= <-].
Qed.

Lemma hackyOffset_wall_text d date s pre mon day yr y comma hr mn sc post :
  time_clip (num_of_Z date) = Some date ->
  strip_lrm (format_text O (dtf_options d) (dtf_zone d) date) =
    pre ++ wall_text mon day yr (era_of y) comma hr mn sc post ->
  Forall (fun x => is_digit x = false) pre ->
  digits mon -> digits day -> digits yr ->
  digits hr -> digits mn -> digits sc -> stops post ->
  hackyOffset O (Some (Own d)) date s =
  (Ok (map VString [yr; mon; day; era_of y; hr; mn; sc]), log [Format d] s).
Proof.
  intros Ht Htext Hpre Hmon Hday Hyr Hhr Hmn Hsc Hpost.
  rewrite hackyOffset_eq by done. rewrite Htext.
  by rewrite exec_re_wall.
Qed.

(** X8.  [hackyOffset] on a formatter whose text, once the left-to-right
    marks are removed, reads [m/d/y era h:m:s] (with or without a comma
    after the era) after a prefix without digits: the seven captures are
    returned as strings, the year first, and the formatter was asked once. *)
Theorem hackyOffset_parses (d : DTF) (date : Z) (s : state)
    (pre mon day yr : list Z) (y : Z) (comma : bool) (hr mn sc post : list Z) :
  time_clip (num_of_Z date) = Some date ->
  strip_lrm (format_text O (dtf_options d) (dtf_zone d) date) =
    pre ++ wall_text mon day yr (era_of y) comma hr mn sc post ->
  Forall (fun x => is_digit x = false) pre ->
  digits mon -> digits day -> digits yr ->
  digits hr -> digits mn -> digits sc -> stops post ->
  hackyOffset O (Some (Own d)) date s =
  (Ok (map VString [yr; mon; day; era_of y; hr; mn; sc]), log [Format d] s).
Proof.
  intros. by apply (hackyOffset_wall_text _ _ _ pre _ _ _ _ comma _ _ _ post).
Qed.

(** X9.  Whenever [hackyOffset] returns, it was given a formatter, asked it
    once, and found [m/d/y era h:m:s] in its text: the seven fields are
    strings, six runs of digits and [AD] or [BC].  The hour is therefore
    never the number 24, and [adjustedHour] hands it on as it is. *)
Theorem hackyOffset_returns_strings (dtf : option (member DTF)) (date : Z)
    (s s' : state) (fields : list value) :
  hackyOffset O dtf date s = (Ok fields, s') ->
  exists d pre mon day yr era comma hr mn sc post,
    dtf = Some (Own d) /\ s' = log [Format d] s /\
    strip_lrm (format_text O (dtf_options d) (dtf_zone d) date) =
      pre ++ wall_text mon day yr era comma hr mn sc post /\
    fields = map VString [yr; mon; day; era; hr; mn; sc] /\
    digits mon /\ digits day /\ digits yr /\
    (era = js "AD" \/ era = js "BC") /\
    digits hr /\ digits mn /\ digits sc /\
    hour (wall_object fields) = VString hr.
Proof.
  intros H. destruct dtf as [[d|b]|]; [|done|done].
  destruct (time_clip (num_of_Z date)) as [tv|] eqn:Ht.
  - apply time_clip_of_Z in Ht as Htv. subst tv.
    rewrite hackyOffset_eq in H by done.
    destruct (exec re_wall _) as [caps|] eqn:E; [|done].
    apply exec_re_wall_inv in E
      as (pre & mon & day & yr & era & comma & hr & mn & sc & post & Htext &
          -> & Hmon & Hday & Hyr & Hera & Hhr & Hmn & Hsc).
    injection H as <- <-.
    exists d, pre, mon, day, yr, era, comma, hr, mn, sc, post.
    repeat (split; [done|]). reflexivity.
  - unfold hackyOffset, dtf_format in H. rewrite Ht in H. done.
Qed.

End TextPath.

Lemma numeral_number ds n : numeral ds n -> StringToNumber ds = num_of_Z n.
Proof. intros [H <-]. by apply StringToNumber_digits. Qed.

Lemma era_year_text yr y :
  numeral yr (year_of_era y) ->
  ToNumber (era_year (VString yr) (VString (era_of y))) = num_of_Z y.
Proof.
  intros H. apply numeral_number in H.
  unfold era_year, era_of, year_of_era in *. destruct (0 <? y) eqn:E.
  - change (strict_eq (VString (js "AD")) (VString (js "BC"))) with false.
    done.
  - change (strict_eq (VString (js "BC")) (VString (js "BC"))) with true.
    apply Z.ltb_ge in E. cbn [ToNumber]. rewrite H.
    rewrite Math_abs_Z, nneg_Z. change (Num 1) with (num_of_Z 1).
    rewrite nadd_Z. f_equal. lia.
Qed.

Lemma offset_of_fields_text h24 w t o fmon fday fyr fhr fmn fsc :
  seconds_of_wall w = t / 1000 + o ->
  numeral fmon (w_month w) -> numeral fday (w_day w) ->
  numeral fyr (year_of_era (w_year w)) ->
  numeral fhr (shown_hour h24 (w_hour w)) ->
  numeral fmn (w_minute w) -> numeral fsc (w_second w) ->
  offset_of_fields
    (map VString [fyr; fmon; fday; era_of (w_year w); fhr; fmn; fsc]) t
  = minutes_of_seconds (if h24 && (w_hour w =? 0) then o + 86400 else o).
Proof.
  intros Hw Hmon Hday Hyr Hhr Hmn Hsc.
  unfold offset_of_fields, objToLocalTS, wall_object.
  cbn [map array_get lookup list_lookup default year month day hour minute
       second millisecond from_option].
  unfold id. rewrite (era_year_text _ _ Hyr).
  change (adjustedHour (VString fhr)) with (VString fhr). cbn [ToNumber].
  rewrite (numeral_number _ _ Hmon), (numeral_number _ _ Hday),
    (numeral_number _ _ Hhr), (numeral_number _ _ Hmn),
    (numeral_number _ _ Hsc).
  change (Num 0) with (num_of_Z 0). rewrite !to_integer_Z.
  rewrite nsub_Z, floor_to_second_div, <- ndiv_minutes. f_equal. f_equal.
  unfold seconds_of_wall in Hw. unfold shown_hour.
  destruct h24, (Z.eqb_spec (w_hour w) 0); cbn [andb]; lia.
Qed.

Section TextOffset.

Variable O : Oracle.

(** X10.  Without [formatToParts] the Calculated resolver reads the
    formatter's text.  When that text shows the wall clock [o] seconds ahead
    of UTC, the resolver returns [o / 60] minutes, unless midnight is printed
    as hour 24: the hour is then taken as 24 on the same day, and the result
    is a day too large. *)
Theorem calculatedOffset_reads_text (z : list Z) (ts : number) (t o : Z)
    (h24 : bool) (w : wall_clock) (s : state) :
  cache_ok O s ->
  has_formatToParts O = false ->
  supports O WallFields z = true -> inherited_get z = None ->
  time_clip ts = Some t ->
  seconds_of_wall w = t / 1000 + o ->
  prints_wall O z t h24 w ->
  fst (calculatedOffset O z ts s) =
  Ok (minutes_of_seconds (if h24 && (w_hour w =? 0) then o + 86400 else o)).
Proof.
  intros Hs Hp Hz Hi Ht Hw
    (pre & mon & day & yr & comma & hr & mn & sc & post & Htext & Hpre &
     Hpost & Hmon & Hday & Hyr & Hhr & Hmn & Hsc).
  rewrite calculatedOffset_eq, Ht.
  destruct (calculated_lookup O s z Hs Hz Hi) as (s1 & ->). rewrite Hp.
  rewrite (hackyOffset_wall_text O _ t s1 pre mon day yr (w_year w) comma hr mn sc
             post); try done; try (by eapply time_clip_again);
    try (by destruct Hmon); try (by destruct Hday); try (by destruct Hyr);
    try (by destruct Hhr); try (by destruct Hmn); try (by destruct Hsc).
  cbn [fst]. f_equal. by apply (offset_of_fields_text h24 w).
Qed.

End TextOffset.

Lemma hackyOffset_parses_witness :
  hackyOffset legacy
    (Some (Own {| dtf_options := WallFields; dtf_zone := js "Asia/Kolkata" |}))
    1577836800123 initial =
  (Ok (map VString (map js ["2020"; "01"; "01"; "AD"; "05"; "30"; "00"]%string)),
   log [Format {| dtf_options := WallFields; dtf_zone := js "Asia/Kolkata" |}]
     initial).
Proof.
  apply (hackyOffset_parses legacy
           {| dtf_options := WallFields; dtf_zone := js "Asia/Kolkata" |}
           1577836800123 initial [] (js "01") (js "01") (js "2020") 2020 true
           (js "05") (js "30") (js "00") []).
  - vm_compute. reflexivity.
  - vm_compute. reflexivity.
  - constructor.
  - split; [done | repeat constructor].
  - split; [done | repeat constructor].
  - split; [done | repeat constructor].
  - split; [done | repeat constructor].
  - split; [done | repeat constructor].
  - split; [done | repeat constructor].
  - exact I.
Defined.

Lemma hackyOffset_returns_strings_witness :
  exists hr,
    digits hr /\
    hour (wall_object
            (map VString
               (map js ["2020"; "01"; "01"; "AD"; "24"; "00"; "00"]%string))) =
    VString hr.
Proof.
  destruct (hackyOffset_returns_strings legacy
              (Some (Own {| dtf_options := WallFields; dtf_zone := js "Etc/GMT" |}))
              1577836800000 initial
              (log [Format {| dtf_options := WallFields; dtf_zone := js "Etc/GMT" |}]
                 initial)
              (map VString
                 (map js ["2020"; "01"; "01"; "AD"; "24"; "00"; "00"]%string)))
    as (d & pre & mon & day & yr & era & comma & hr & mn & sc & post & _ & _ &
        _ & _ & _ & _ & _ & _ & Hhr & _ & _ & Hhour).
  - vm_compute. reflexivity.
  - exists hr. split; [exact Hhr | exact Hhour].
Defined.

Lemma calculatedOffset_reads_text_witness :
  fst (calculatedOffset legacy (js "Etc/GMT") (Num 1577836800000) initial) =
  Ok (minutes_of_seconds 86400).
Proof.
  apply (calculatedOffset_reads_text legacy (js "Etc/GMT") (Num 1577836800000)
           1577836800000 0 true
           {| w_year := 2020; w_month := 1; w_day := 1;
              w_hour := 0; w_minute := 0; w_second := 0 |} initial).
  - apply cache_ok_initial.
  - reflexivity.
  - vm_compute. reflexivity.
  - vm_compute. reflexivity.
  - vm_compute. reflexivity.
  - vm_compute. reflexivity.
  - exists [], (js "01"), (js "01"), (js "2020"), true, (js "24"), (js "00"),
      (js "00"), [].
    split; [vm_compute; reflexivity|]. split; [constructor|].
    split; [exact I|].
    repeat split; try done; try (repeat constructor); vm_compute; reflexivity.
Defined.

(** ** The array of [partsOffset] *)

(** X11.  Element [i] of the array [partsOffset] builds is the value of the
    last part whose type [typeToPos] maps to [i], a string for the era and
    [parseInt] of the text otherwise; without such a part the element stays
    as it was, a hole in the fresh array.  Parts of any other type, among
    them [literal] and the names [Object.prototype] defines, change
    nothing. *)
Theorem fill_parts_last_wins (parts : list (list Z * list Z))
    (filled : list value) (i : nat) :
  array_get (fill_parts parts filled) i =
  match last (filter (fun p => typeToPos !! p.1 = Some i) parts) with
  | Some p => part_value p.1 p.2
  | None => array_get filled i
  end.
Proof.
  revert filled. induction parts as [|[type val] rest IH]; intros filled.
  - done.
  - cbn [fill_parts]. rewrite IH. rewrite filter_cons. cbn [fst snd].
    unfold obj_get. destruct (typeToPos !! type) as [j|] eqn:E.
    + fold (part_value type val).
      replace (if bool_decide (type = js "era")
               then array_set filled j (VString val)
               else array_set filled j (VNumber (parseInt val)))
        with (array_set filled j (part_value type val))
        by (unfold part_value; by destruct (bool_decide _)).
      destruct (decide (Some j = Some i)) as [[= ->]|Hne].
      * rewrite last_cons.
        destruct (last (filter _ rest)); [done|].
        unfold array_get. rewrite lookup_array_set.
        by destruct (decide (i = i)).
      * destruct (last (filter _ rest)); [done|].
        unfold array_get. rewrite lookup_array_set.
        destruct (decide (i = j)) as [->|]; [done|].
        destruct (decide (i < length filled)%nat); [done|].
        rewrite (lookup_ge_None_2 filled i) by lia.
        by destruct (decide (i < j)%nat).
    + destruct (decide (None = Some i)); [done|].
      assert ((if bool_decide (type = js "era")
               then match Inherited <$> inherited_get type with
                    | Some (Own i0) => array_set filled i0 (VString val)
                    | _ => filled
                    end
               else match Inherited <$> inherited_get type with
                    | Some (Own i0) =>
                        array_set filled i0 (VNumber (parseInt val))
                    | _ => filled
                    end) = filled) as ->; [|done].
      by destruct (bool_decide _), (inherited_get type).
Qed.

(** ** The instant without its milliseconds *)

(** X12.  [asTS] is the instant rounded down to a whole second, also before
    1970, where [%] gives a negative remainder: it is the multiple of 1000
    with [asTS <= date < asTS + 1000]. *)
Theorem floor_to_second_floor (date : Z) :
  (exists k, floor_to_second date = 1000 * k) /\
  floor_to_second date <= date < floor_to_second date + 1000.
Proof.
  rewrite floor_to_second_div. split; [by eexists|].
  pose proof (Z.mod_pos_bound date 1000 ltac:(lia)).
  pose proof (Z.div_mod date 1000 ltac:(lia)). lia.
Qed.

(** ** Which call touches what *)

Section Independence.

Variable O : Oracle.

Lemma keeps_heap_offset name ts s :
  heap (snd (offset O name ts s)) = heap s.
Proof.
  assert (Hd : forall zone,
    stable (keeps heap) (makeDirectOffsetDTF O zone))
    by (intros; apply stable_makeDirectOffsetDTF_plain; kept).
  assert (Hc : forall zone,
    stable (keeps heap) (makeCalculatedOffsetDTF O zone))
    by (intros; apply stable_makeCalculatedOffsetDTF_plain; kept).
  apply (stable_offset O (keeps heap)); kept.
Qed.

(** X13.  The zone cache and the formatter caches do not interfere.
    Creating or constructing a zone and validating a name leave both
    formatter caches as they are; only [create] and [resetCache] change the
    zone cache; only [create] and the constructor allocate a zone object. *)
Theorem caches_are_independent (c : call) (s : state) :
  ((forall name ts, c <> CallOffset name ts) -> c <> CallResetCache ->
   directOffsetDTFCache (step O c s) = directOffsetDTFCache s /\
   calculatedOffsetDTFCache (step O c s) = calculatedOffsetDTFCache s) /\
  ((forall name, c <> CallCreate name) -> c <> CallResetCache ->
   ianaZoneCache (step O c s) = ianaZoneCache s) /\
  ((forall name, c <> CallCreate name) -> (forall name, c <> CallNew name) ->
   heap (step O c s) = heap s).
Proof.
  split; [|split].
  - intros H1 H2. destruct c as [name|name| |z|z|name ts]; cbn [step].
    + rewrite create_eq. by destruct (obj_get _ _).
    + by rewrite new_IANAZone_eq.
    + done.
    + by rewrite isValidZone_eq.
    + unfold isValidSpecifier. by rewrite isValidZone_eq.
    + by destruct (H1 name ts).
  - apply keeps_ianaZoneCache_step.
  - intros H1 H2. destruct c as [name|name| |z|z|name ts]; cbn [step].
    + by destruct (H1 name).
    + by destruct (H2 name).
    + done.
    + by rewrite isValidZone_eq.
    + unfold isValidSpecifier. by rewrite isValidZone_eq.
    + apply keeps_heap_offset.
Qed.

End Independence.

Lemma caches_are_independent_witness :
  let s := run modern [CallOffset (js "Asia/Kolkata") (Num 0);
                       CallCreate (js "Asia/Kolkata")] initial in
  let s' := step modern (CallIsValidZone (js "Asia/Kolkata")) s in
  directOffsetDTFCache s' = directOffsetDTFCache s /\
  ianaZoneCache s' = ianaZoneCache s /\ heap s' = heap s.
Proof.
  intros s s'.
  destruct (caches_are_independent modern
              (CallIsValidZone (js "Asia/Kolkata")) s) as (H1 & H2 & H3).
  split; [|split].
  - apply H1; done.
  - apply H2; done.
  - apply H3; done.
Defined.
